(** * django-formidable: dynamic forms and conditional field removal

    A shallow embedding of [formidable/forms/__init__.py]:
    - [BaseDynamicForm.get_removed_fields] and [BaseDynamicForm.clean],
      the conditional-display pass run after field validation;
    - [get_dynamic_form_class] and [get_dynamic_form_class_from_schema],
      which assemble a form class from a formidable object or a schema;
    - [FormidableForm.to_formidable] and [FormidableForm.get_clean_form],
      which persist a declared form as a formidable object.

    Plain Python dicts used as maps are [gmap string _]; the
    [OrderedDict] of class attributes and the ordered field mapping of a
    form are association lists, because their order is observable. *)

From Stdlib Require Import ZArith.
From stdpp Require Import gmap strings list fin_maps sorting.

Open Scope string_scope.
Open Scope list_scope.

(** ** Python exceptions and results *)

Inductive exn : Type :=
  | ValueError (msg : string)
  | KeyError (key : string).

Inductive result (A : Type) : Type :=
  | Ok (a : A)
  | Raise (e : exn).
Arguments Ok {A} a.
Arguments Raise {A} e.

(** Sequencing: an exception skips the rest ([x ← r; k] below). *)
#[export] Instance result_ret : MRet result := λ A a, Ok a.
#[export] Instance result_bind : MBind result := λ A B k r,
  match r with
  | Ok a => k a
  | Raise e => Raise e
  end.

(** A [for] loop whose body may raise: the first exception ends it. *)
Fixpoint for_each {A S} (body : S → A → result S) (s : S) (xs : list A)
  : result S :=
  match xs with
  | [] => Ok s
  | x :: xs' => s' ← body s x; for_each body s' xs'
  end.

(** Truthiness of an optional string: [None] and [''] are falsy. *)
Definition truthy (s : option string) : bool :=
  match s with
  | Some s' => negb (String.eqb s' "")
  | None => false
  end.

(** [a or b] on strings. *)
Definition str_or (a : option string) (b : string) : string :=
  match a with
  | Some s => if String.eqb s "" then b else s
  | None => b
  end.

(** Python's [any] over a list of booleans. *)
Definition any (v : list bool) : bool := existsb id v.

(** ** Ordered dictionaries

    [OrderedDict] (and the [fields] mapping of a Django form, which is
    one) keeps its keys in insertion order. *)

Abbreviation OrderedDict V := (list (string * V)).

Fixpoint od_get {V} (k : string) (d : OrderedDict V) : option V :=
  match d with
  | [] => None
  | (k', v) :: d' => if decide (k' = k) then Some v else od_get k d'
  end.

(** [d[k] = v]: an existing key keeps its position, a new one goes last. *)
Fixpoint od_set {V} (k : string) (v : V) (d : OrderedDict V)
  : OrderedDict V :=
  match d with
  | [] => [(k, v)]
  | (k', v') :: d' =>
      if decide (k' = k) then (k, v) :: d' else (k', v') :: od_set k v d'
  end.

(** [k in d] *)
Definition od_contains {V} (k : string) (d : OrderedDict V) : bool :=
  bool_decide (k ∈ d.*1).

Definition od_remove {V} (k : string) (d : OrderedDict V) : OrderedDict V :=
  filter (λ kv, kv.1 ≠ k) d.

(** [del d[k]] raises [KeyError] on a missing key. *)
Definition od_del {V} (k : string) (d : OrderedDict V)
  : result (OrderedDict V) :=
  if od_contains k d then Ok (od_remove k d) else Raise (KeyError k).

(** ** The dynamic form *)

Section DynamicForm.
Context {Value Error FormField : Type}.

(** A compiled condition, as [BaseDynamicForm] uses it: the slugs it
    governs and its verdict on the cleaned data. *)
Record Condition : Type := {
  fields_ids : list string;
  keep_fields : gmap string Value → bool;
}.

(** The part of a form instance that [clean] reads and writes. *)
Record BaseDynamicForm : Type := {
  fields : OrderedDict FormField;
  cleaned_data : gmap string Value;
  errors : gmap string Error;
  _conditions : list Condition;
}.

(** The body of the inner loop of [get_removed_fields]:
<<
    if field_id not in condition_targets:
        condition_targets[field_id] = []
    condition_targets[field_id].append(keep_fields)
>> *)
Definition fill_catalog (keep : bool)
    (condition_targets : gmap string (list bool)) (field_id : string)
  : gmap string (list bool) :=
  let condition_targets :=
    match condition_targets !! field_id with
    | None => <[field_id := []]> condition_targets
    | Some _ => condition_targets
    end in
  alter (λ v, (v ++ [keep])%list) field_id condition_targets.

(** The catalog of targeted fields after the loop over the conditions. *)
Definition condition_targets (conditions : list Condition)
    (data : gmap string Value) : gmap string (list bool) :=
  foldl (λ targets condition,
           let keep := keep_fields condition data in
           foldl (fill_catalog keep) targets (fields_ids condition))
        ∅ conditions.

(** [get_removed_fields]: the keys of the catalog whose votes are all
    false.  The source returns a generator over the reduced catalog;
    the catalog is complete before the generator is returned, so the
    slugs it yields are this list (in the map's key order). *)
Definition get_removed_fields (conditions : list Condition)
    (data : gmap string Value) : list string :=
  let targets : gmap string bool := any <$> condition_targets conditions data in
  (filter (λ kv, kv.2 = false) (map_to_list targets)).*1.

(** The body of the removal loop of [clean]. *)
Definition remove_field (self : BaseDynamicForm) (field_id : string)
  : result BaseDynamicForm :=
  (* cleaned_data.pop(field_id, None) *)
  let data := delete field_id (cleaned_data self) in
  (* self.errors.pop(field_id, None) *)
  let errs := delete field_id (errors self) in
  (* if field_id in self.fields: del self.fields[field_id] *)
  flds ← (if od_contains field_id (fields self)
          then od_del field_id (fields self)
          else Ok (fields self));
  Ok {| fields := flds; cleaned_data := data; errors := errs;
        _conditions := _conditions self |}.

(** [clean]: [super().clean()] hands back the form's own
    [cleaned_data] dictionary, so what is returned is the very mapping
    the loop has pruned. *)
Definition clean (self : BaseDynamicForm)
  : result (gmap string Value * BaseDynamicForm) :=
  let data := cleaned_data self in
  let removed_fields := get_removed_fields (_conditions self) data in
  self' ← for_each remove_field self removed_fields;
  Ok (cleaned_data self', self').

End DynamicForm.

Arguments Condition : clear implicits.
Arguments BaseDynamicForm : clear implicits.

(** ** Conditions with effects

    [condition.keep_fields] is a method call: nothing in
    [get_removed_fields] prevents it from reading or changing state of
    its own.  This variant threads such a state [W] through the loop, to
    say what purity of the predicates buys. *)

Section EffectfulConditions.
Context {Value W : Type}.

Record EffCondition : Type := {
  eff_fields_ids : list string;
  eff_keep_fields : W → gmap string Value → bool * W;
}.

Definition eff_condition_targets (conditions : list EffCondition)
    (data : gmap string Value) (w : W) : gmap string (list bool) * W :=
  foldl (λ acc condition,
           let '(keep, w') := eff_keep_fields condition acc.2 data in
           (foldl (fill_catalog keep) acc.1 (eff_fields_ids condition), w'))
        (∅, w) conditions.

Definition eff_get_removed_fields (conditions : list EffCondition)
    (data : gmap string Value) (w : W) : list string * W :=
  let '(catalog, w') := eff_condition_targets conditions data w in
  let targets : gmap string bool := any <$> catalog in
  ((filter (λ kv, kv.2 = false) (map_to_list targets)).*1, w').

(** The verdict of a pure predicate depends on the cleaned data only. *)
Definition pure_keep_fields (condition : EffCondition) : Prop :=
  ∀ w1 w2 data,
    (eff_keep_fields condition w1 data).1
    = (eff_keep_fields condition w2 data).1.

(** A condition of the pure model, seen as an effectful one. *)
Definition lift_condition (c : Condition Value) : EffCondition :=
  {| eff_fields_ids := fields_ids c;
     eff_keep_fields := λ w data, (keep_fields c data, w) |}.

End EffectfulConditions.

Arguments EffCondition : clear implicits.

(** ** The form class generator *)

(** [QuerySet.order_by]: ascending on the key, rows with equal keys in
    the order they had. *)
Fixpoint insert_by {A} (key : A → Z) (x : A) (l : list A) : list A :=
  match l with
  | [] => [x]
  | y :: l' =>
      if decide (key x ≤ key y)%Z then x :: y :: l'
      else y :: insert_by key x l'
  end.

Definition order_by {A} (key : A → Z) (l : list A) : list A :=
  foldr (insert_by key) [] l.

(** The rows of the models that the generator reads. *)
Record Item : Type := { item_order : Z; item_value : string }.
Record Access : Type := { access_id : string; access_level : string }.

(** A field definition: a [Field] row of a formidable object, or the
    dictionary that stands for it in a schema. *)
Record FieldDef : Type := {
  slug : string;
  order : Z;
  items : list Item;
  accesses : list Access;
}.

(** The value of the ['conditions'] key of a schema. *)
Inductive json_key (A : Type) : Type :=
  | Absent
  | Null
  | Present (a : A).
Arguments Absent {A}.
Arguments Null {A}.
Arguments Present {A} a.

(** [d.get(key, None)] *)
Definition json_get {A} (j : json_key A) : option A :=
  match j with
  | Present a => Some a
  | Absent | Null => None
  end.

(** [l or []] *)
Definition list_or_empty {A} (l : option (list A)) : list A :=
  match l with
  | Some (x :: l') => x :: l'
  | Some [] | None => []
  end.

Section FormClass.
Context {Value FormField CondSpec : Type}.

(** [field_factory.produce(field, role)]: [None] stands for the
    [SkipField] exception. *)
Record FormFieldFactory : Type := {
  produce : FieldDef → option string → option FormField;
}.

(** What the class attributes hold. *)
Inductive attr : Type :=
  | AttrField (form_field : FormField)
  | AttrConditions (conditions : list (Condition Value)).

(** A dynamically generated form class: Django's form metaclass moves
    the attributes that are fields, in their order, to [base_fields];
    the others stay class attributes. *)
Record DynamicFormClass : Type := {
  base_fields : OrderedDict FormField;
  class_conditions : list (Condition Value);
  class_doc : option string;
}.

Definition declared_fields (attrs : OrderedDict attr)
  : OrderedDict FormField :=
  omap (λ kv, match kv.2 with
              | AttrField form_field => Some (kv.1, form_field)
              | AttrConditions _ => None
              end) attrs.

(** [type('DynamicForm', (BaseDynamicForm,), attrs)] *)
Definition new_form_class (attrs : OrderedDict attr) : DynamicFormClass :=
  {| base_fields := declared_fields attrs;
     class_conditions :=
       match od_get "_conditions" attrs with
       | Some (AttrConditions conditions) => conditions
       | _ => []
       end;
     class_doc := None |}.

(** The schema of a form, and the part of a formidable object that
    the generator reads: its field rows as the database holds them,
    and its conditions column. *)
Record Schema : Type := {
  schema_description : string;
  schema_fields : list FieldDef;
  schema_conditions : json_key (list CondSpec);
}.

Record FormidableObject : Type := {
  formidable_fields : list FieldDef;
  formidable_conditions : option (list CondSpec);
}.

(** The two collaborators that are not part of this module: the
    default field factory, and the compilation of one condition
    specification against the fields built so far. *)
Context (default_factory : FormFieldFactory).
Context (compile : OrderedDict attr → CondSpec → Condition Value).

(** Modelled from the spec: [conditions_register.build] lives in
    formidable/forms/conditions.py, which is not among the sources.
    The spec gives its contract: an ordered sequence of condition
    specifications goes in, the sequence of their compiled conditions
    comes out, and building is pure. *)
Definition build (attrs : OrderedDict attr) (conditions : list CondSpec)
  : list (Condition Value) :=
  compile attrs <$> conditions.

(** One turn of the loop over the field definitions:
<<
    try:
        form_field = field_factory.produce(field, role)
    except field_builder.SkipField:
        pass
    else:
        attrs[field.slug] = form_field
>> *)
Definition add_field (field_factory : FormFieldFactory)
    (role : option string) (attrs : OrderedDict attr) (field : FieldDef)
  : OrderedDict attr :=
  match produce field_factory field role with
  | None => attrs
  | Some form_field => od_set (slug field) (AttrField form_field) attrs
  end.

(** The field definitions as [get_dynamic_form_class_from_schema]
    visits them, and the class attributes it ends with. *)
Definition schema_iteration (schema : Schema) : list FieldDef :=
  schema_fields schema.

Definition schema_attrs (schema : Schema)
    (field_factory : option FormFieldFactory) : OrderedDict attr :=
  let field_factory := default default_factory field_factory in
  let attrs := foldl (add_field field_factory None) []
                     (schema_iteration schema) in
  let conditions := list_or_empty (json_get (schema_conditions schema)) in
  od_set "_conditions" (AttrConditions (build attrs conditions)) attrs.

Definition get_dynamic_form_class_from_schema (schema : Schema)
    (field_factory : option FormFieldFactory) : DynamicFormClass :=
  let doc := schema_description schema in
  let form_class := new_form_class (schema_attrs schema field_factory) in
  {| base_fields := base_fields form_class;
     class_conditions := class_conditions form_class;
     class_doc := Some doc |}.

(** The prefetches of [get_dynamic_form_class]: items by their order,
    accesses restricted to the role when one is given. *)
Definition prefetch_related (role : option string) (field : FieldDef)
  : FieldDef :=
  {| slug := slug field;
     order := order field;
     items := order_by item_order (items field);
     accesses :=
       if truthy role
       then filter (λ a, Some (access_id a) = role) (accesses field)
       else accesses field |}.

(** [fields.order_by('order').all()] *)
Definition formidable_iteration (formidable : FormidableObject)
    (role : option string) : list FieldDef :=
  order_by order (prefetch_related role <$> formidable_fields formidable).

Definition formidable_attrs (formidable : FormidableObject)
    (role : option string) (field_factory : option FormFieldFactory)
  : OrderedDict attr :=
  let field_factory := default default_factory field_factory in
  let attrs := foldl (add_field field_factory role) []
                     (formidable_iteration formidable role) in
  let conditions_json :=
    list_or_empty (formidable_conditions formidable) in
  od_set "_conditions" (AttrConditions (build attrs conditions_json)) attrs.

Definition get_dynamic_form_class (formidable : FormidableObject)
    (role : option string) (field_factory : option FormFieldFactory)
  : DynamicFormClass :=
  new_form_class (formidable_attrs formidable role field_factory).

(** A form instance of a generated class once its fields have been
    validated: [fields] is a copy of [base_fields], and
    [self._conditions] reads the class attribute. *)
Definition instantiate {Error} (form_class : DynamicFormClass)
    (data : gmap string Value) (errs : gmap string Error)
  : BaseDynamicForm Value Error FormField :=
  {| fields := base_fields form_class;
     cleaned_data := data;
     errors := errs;
     _conditions := class_conditions form_class |}.

End FormClass.

Arguments FormFieldFactory : clear implicits.
Arguments attr : clear implicits.
Arguments DynamicFormClass : clear implicits.
Arguments Schema : clear implicits.
Arguments FormidableObject : clear implicits.

(** ** Saving a declared form as a formidable object *)

Module Model.

(** A [Formidable] row; the object a caller holds in memory has the
    same shape. *)
Record Formidable : Type := {
  pk : Z;
  label : string;
  description : string;
}.

(** A [Field] row, as far as this module is concerned: the form it is
    attached to, its slug and its position. *)
Record FieldRow : Type := {
  form_id : Z;
  field_slug : string;
  field_order : Z;
}.

Record Database : Type := {
  formidables : list Formidable;
  field_rows : list FieldRow;
  next_pk : Z;
}.

End Model.
Import Model.

(** [Formidable.objects.create(label=..., description=...)] *)
Definition objects_create (label description : string) (db : Database)
  : Formidable * Database :=
  let form := {| pk := next_pk db; label := label;
                 description := description |} in
  (form, {| formidables := formidables db ++ [form];
            field_rows := field_rows db;
            next_pk := (next_pk db + 1)%Z |}).

(** [form.fields.all().delete()] *)
Definition delete_fields (form : Formidable) (db : Database) : Database :=
  {| formidables := formidables db;
     field_rows := filter (λ row, form_id row ≠ pk form) (field_rows db);
     next_pk := next_pk db |}.

(** [Formidable.objects.filter(pk=form.pk).update(...)] with the
    keyword arguments [label] and [description]. *)
Definition objects_update (key : Z) (label description : string)
    (db : Database) : Database :=
  {| formidables :=
       (λ row, if decide (pk row = key)
               then {| pk := pk row; label := label;
                       description := description |}
               else row) <$> formidables db;
     field_rows := field_rows db;
     next_pk := next_pk db |}.

Section FormidableForm.
(** A declared field of a [FormidableForm] subclass, and how it saves
    itself: [field.to_formidable(form, order, slug)] belongs to
    formidable/forms/fields.py and is taken as given; it adds to the
    field rows. *)
Context {DeclaredField : Type}.
Context (field_to_formidable :
  DeclaredField → Formidable → Z → string → list FieldRow → list FieldRow).

Definition get_clean_form (form : Formidable)
    (label description : option string) (db : Database)
  : Formidable * Database :=
  let db := delete_fields form db in
  if truthy description || truthy label then
    let kwargs_description := str_or description (Model.description form) in
    let kwargs_label := str_or label (Model.label form) in
    let db := objects_update (pk form) kwargs_label kwargs_description db in
    ({| pk := pk form; label := kwargs_label;
        description := kwargs_description |}, db)
  else (form, db).

(** The loop over [cls.declared_fields.items()], [order] counting up
    from 0. *)
Definition save_declared_fields (cls : OrderedDict DeclaredField)
    (form : Formidable) (db : Database) : Database :=
  let '(_, rows) :=
    foldl (λ acc item,
             (acc.1 + 1,
              field_to_formidable item.2 form acc.1 item.1 acc.2)%Z)
          (0%Z, field_rows db) cls in
  {| formidables := formidables db; field_rows := rows;
     next_pk := next_pk db |}.

Definition to_formidable (cls : OrderedDict DeclaredField)
    (label description : option string) (instance : option Formidable)
    (db : Database) : result Formidable * Database :=
  match instance with
  | None =>
      if negb (truthy label)
      then (Raise (ValueError "Label is required on creation mode"), db)
      else
        let description := str_or description "" in
        let '(form, db) :=
          objects_create (default "" label) description db in
        (Ok form, save_declared_fields cls form db)
  | Some instance =>
      let '(form, db) := get_clean_form instance label description db in
      (Ok form, save_declared_fields cls form db)
  end.

End FormidableForm.

(** ** Concrete forms

    Small forms, schemas and databases on which the properties below
    are exercised.  Values are booleans, form fields are named by a
    string, and a condition specification names its trigger and its
    targets. *)

Module Scenario.

(** "If [trigger] is true, keep [targets], else remove them." *)
Definition keep_if (trigger : string) (targets : list string)
  : Condition bool :=
  {| fields_ids := targets;
     keep_fields := λ data, default false (data !! trigger) |}.

(** Two conditions on the same slug [C], as in the spec's scenario. *)
Definition conditions_on_C : list (Condition bool) :=
  [keep_if "A" ["C"]; keep_if "B" ["C"]].

Definition submission : gmap string bool :=
  {[ "A" := false; "B" := true; "C" := true; "D" := false ]}.

Definition form : BaseDynamicForm bool string string :=
  {| fields := [("A", "boolean"); ("B", "boolean");
                ("C", "boolean"); ("D", "boolean")];
     cleaned_data := submission;
     errors := ∅;
     _conditions := conditions_on_C |}.

(** A condition whose verdict is pure although it counts its calls,
    and one whose verdict is its own state, flipped at every call. *)
Definition counting_keep_if (trigger : string) (targets : list string)
  : EffCondition bool nat :=
  {| eff_fields_ids := targets;
     eff_keep_fields := λ calls data,
       (default false (data !! trigger), S calls) |}.

Definition alternating (targets : list string) : EffCondition bool bool :=
  {| eff_fields_ids := targets;
     eff_keep_fields := λ state data, (state, negb state) |}.

(** A factory that skips the fields hidden from the role. *)
Definition factory : FormFieldFactory string :=
  {| produce := λ field role,
       if existsb (λ a, String.eqb (access_level a) "HIDDEN")
                  (accesses field)
       then None else Some "text" |}.

Definition compile (attrs : OrderedDict (attr bool string))
    (spec : string * list string) : Condition bool :=
  keep_if spec.1 spec.2.

Definition field_def (name : string) (position : Z)
    (accesses : list Access) : FieldDef :=
  {| slug := name; order := position; items := []; accesses := accesses |}.

Definition hidden_from_guest : Access :=
  {| access_id := "guest"; access_level := "HIDDEN" |}.

(** Field rows stored out of their order, one of them hidden. *)
Definition formidable : FormidableObject (string * list string) :=
  {| formidable_fields :=
       [field_def "b" 2 []; field_def "secret" 3 [hidden_from_guest];
        field_def "a" 1 []];
     formidable_conditions := None |}.

(** A schema that lists its fields against their order. *)
Definition schema : Schema (string * list string) :=
  {| schema_description := "two fields";
     schema_fields := [field_def "b" 2 []; field_def "a" 1 []];
     schema_conditions := Absent |}.

(** A field stored under the name of the conditions attribute. *)
Definition formidable_with_reserved_slug
  : FormidableObject (string * list string) :=
  {| formidable_fields := [field_def "_conditions" 1 []];
     formidable_conditions := None |}.

(** A database with one formidable object and its two fields, and a
    declared form of two fields that save themselves as one row each. *)
Definition stored_form : Formidable :=
  {| pk := 1; label := "Survey"; description := "First version" |}.

Definition database : Database :=
  {| formidables := [stored_form];
     field_rows := [ {| form_id := 1; field_slug := "name"; field_order := 0 |};
                     {| form_id := 1; field_slug := "age"; field_order := 1 |} ];
     next_pk := 2 |}.

Definition save_row (_ : unit) (form : Formidable) (position : Z)
    (name : string) (rows : list FieldRow) : list FieldRow :=
  rows ++ [ {| form_id := pk form; field_slug := name;
               field_order := position |} ].

Definition declared : OrderedDict unit := [("email", ()); ("phone", ())].

End Scenario.

(** ** More concrete forms *)

Module Cases.
Import Scenario.

(** The conditions on [C] with one of them attached twice. *)
Definition repeated_conditions : list (Condition bool) :=
  [keep_if "A" ["C"]; keep_if "B" ["C"]; keep_if "A" ["C"]].

(** A form whose only condition targets a slug it has no field for. *)
Definition form_with_unknown_target : BaseDynamicForm bool string string :=
  {| fields := fields form; cleaned_data := submission; errors := ∅;
     _conditions := [keep_if "A" ["Z"]] |}.

(** A form whose only condition reads [A] and targets [C], and what
    [clean] makes of it. *)
Definition form_hiding_C : BaseDynamicForm bool string string :=
  {| fields := fields form; cleaned_data := submission; errors := ∅;
     _conditions := [keep_if "A" ["C"]] |}.

Definition form_without_C : BaseDynamicForm bool string string :=
  {| fields := [("A", "boolean"); ("B", "boolean"); ("D", "boolean")];
     cleaned_data := {[ "A" := false; "B" := true; "D" := false ]};
     errors := ∅;
     _conditions := [keep_if "A" ["C"]] |}.

(** A form in which [B], removed by the first condition, is the
    trigger of the second. *)
Definition cascading_form : BaseDynamicForm bool string string :=
  {| fields := fields form; cleaned_data := submission; errors := ∅;
     _conditions := [keep_if "A" ["B"]; keep_if "B" ["C"]] |}.

(** A factory that tells choice fields (those with items) from text
    fields, and skips the hidden ones. *)
Definition kind_factory : FormFieldFactory string :=
  {| produce := λ field role,
       if existsb (λ a, String.eqb (access_level a) "HIDDEN")
                  (accesses field)
       then None
       else Some (match items field with [] => "text" | _ => "choice" end) |}.

(** A schema in which the slug [a] is defined three times: as a text
    field, as a choice field, and hidden. *)
Definition schema_with_repeated_slug : Schema (string * list string) :=
  {| schema_description := "one slug, three definitions";
     schema_fields :=
       [ field_def "a" 1 [];
         {| slug := "a"; order := 2;
            items := [ {| item_order := 1; item_value := "yes" |} ];
            accesses := [] |};
         field_def "a" 3 [hidden_from_guest] ];
     schema_conditions := Absent |}.

(** The rows of [formidable], as another query might return them. *)
Definition formidable_stored_otherwise
  : FormidableObject (string * list string) :=
  {| formidable_fields :=
       [field_def "a" 1 []; field_def "b" 2 [];
        field_def "secret" 3 [hidden_from_guest]];
     formidable_conditions := None |}.

End Cases.

(** ** Auxiliary notions used to state the properties *)

(** The reduced verdict on a slug once one more condition that targets
    it has voted [keep]; [None] is a slug no condition has targeted. *)
Definition vote (o : option bool) (keep : bool) : option bool :=
  Some (default false o || keep).

(** The entry a visited field definition contributes to [base_fields]:
    none when the factory skips it, and none under the attribute name
    that the generator assigns to the compiled conditions. *)
Definition field_entry {FormField} (field_factory : FormFieldFactory FormField)
    (role : option string) (field : FieldDef) : option (string * FormField) :=
  if decide (slug field = "_conditions") then None
  else (λ form_field, (slug field, form_field))
         <$> produce field_factory field role.

(** What it means for a field mapping to hold the fields the factory
    has produced for the visited definitions: its keys are, in visiting
    order, the slugs of the definitions that were not skipped (the
    attribute name [_conditions] apart); a skipped definition has no
    entry; any other one has the produced field under its slug. *)
Definition holds_produced_fields {FormField}
    (field_factory : FormFieldFactory FormField) (role : option string)
    (visited : list FieldDef) (mapping : OrderedDict FormField) : Prop :=
  mapping.*1
  = slug <$> filter (λ field, is_Some (produce field_factory field role)
                              ∧ slug field ≠ "_conditions") visited
  ∧ ∀ field, field ∈ visited →
      (produce field_factory field role = None →
       od_get (slug field) mapping = None)
      ∧ (slug field ≠ "_conditions" →
         od_get (slug field) mapping = produce field_factory field role).

(** * Properties *)

Section CatalogFacts.
Context {Value : Type}.
Implicit Types (data : gmap string Value) (c : Condition Value).
Implicit Types (targets : gmap string (list bool)) (k : string).

Lemma any_snoc (v : list bool) (b : bool) : any (v ++ [b]) = any v || b.
Proof.
  unfold any. rewrite existsb_app. simpl. by rewrite orb_false_r.
Qed.

Lemma fill_catalog_any keep targets k k' :
  any <$> (fill_catalog keep targets k !! k')
  = if decide (k = k') then vote (any <$> (targets !! k)) keep
    else any <$> (targets !! k').
Proof.
  unfold fill_catalog, vote.
  destruct (decide (k = k')) as [<-|Hne].
  - destruct (targets !! k) as [v|] eqn:Hk.
    + rewrite lookup_alter_eq, Hk. simpl. by rewrite any_snoc.
    + rewrite lookup_alter_eq, lookup_insert_eq. simpl.
      by rewrite orb_false_r.
  - rewrite lookup_alter_ne by done.
    destruct (targets !! k); [done|]. by rewrite lookup_insert_ne.
Qed.

Lemma foldl_fill_catalog_any keep ids targets k :
  any <$> (foldl (fill_catalog keep) targets ids !! k)
  = if decide (k ∈ ids) then vote (any <$> (targets !! k)) keep
    else any <$> (targets !! k).
Proof.
  revert targets. induction ids as [|i ids IH]; intros targets; cbn [foldl].
  - case_decide as Hk; [by apply elem_of_nil in Hk|done].
  - rewrite IH, !fill_catalog_any.
    destruct (decide (i = k)) as [->|Hne].
    + destruct (decide (k ∈ k :: ids)) as [_|Hn]; [|by destruct Hn; left].
      unfold vote. case_decide; simpl; [|done].
      by rewrite <-orb_assoc, orb_diag.
    + destruct (decide (k ∈ ids)) as [Hin|Hnin];
        destruct (decide (k ∈ i :: ids)) as [Hin'|Hnin']; try done.
      * destruct Hnin'. by right.
      * apply elem_of_cons in Hin' as [->|?]; done.
Qed.

(** The verdict the catalog holds for slug [k] after the conditions
    [cs], starting from verdict [o]. *)
Lemma condition_targets_any_from cs data targets k :
  any <$> (foldl (λ targets condition,
                    let keep := keep_fields condition data in
                    foldl (fill_catalog keep) targets (fields_ids condition))
                 targets cs !! k)
  = foldl (λ o c, if decide (k ∈ fields_ids c)
                  then vote o (keep_fields c data) else o)
          (any <$> (targets !! k)) cs.
Proof.
  revert targets. induction cs as [|c cs IH]; intros targets; cbn [foldl].
  - done.
  - rewrite IH. cbn zeta. by rewrite foldl_fill_catalog_any.
Qed.

Lemma verdict_from_Some cs data k b :
  ∃ b', foldl (λ o c, if decide (k ∈ fields_ids c)
                      then vote o (keep_fields c data) else o)
              (Some b) cs = Some b'
        ∧ (b' = true ↔
           b = true ∨ ∃ c, c ∈ cs ∧ k ∈ fields_ids c
                            ∧ keep_fields c data = true).
Proof.
  revert b. induction cs as [|c cs IH]; intros b; cbn [foldl].
  - exists b. split; [done|]. split; [by left|].
    intros [?|(c & Hc & _)]; [done|]. by apply elem_of_nil in Hc.
  - case_decide as Hk.
    + change (vote (Some b) (keep_fields c data))
        with (Some (b || keep_fields c data)).
      destruct (IH (b || keep_fields c data)) as (b' & -> & Hb').
      exists b'. split; [done|]. rewrite Hb', orb_true_iff.
      split.
      * intros [[?|?]|(c' & ? & ? & ?)]; [by left| |].
        -- right. exists c. by rewrite elem_of_cons; eauto.
        -- right. exists c'. rewrite elem_of_cons; eauto.
      * intros [?|(c' & Hc' & ? & ?)]; [by left; left|].
        apply elem_of_cons in Hc' as [->|?]; [by left; right|].
        right. eauto.
    + destruct (IH b) as (b' & -> & Hb').
      exists b'. split; [done|]. rewrite Hb'.
      split.
      * intros [?|(c' & ? & ? & ?)]; [by left|].
        right. exists c'. rewrite elem_of_cons; eauto.
      * intros [?|(c' & Hc' & ? & ?)]; [by left|].
        apply elem_of_cons in Hc' as [->|?]; [done|]. right. eauto.
Qed.

Lemma verdict_from_None cs data k :
  match foldl (λ o c, if decide (k ∈ fields_ids c)
                      then vote o (keep_fields c data) else o)
              None cs with
  | None => ∀ c, c ∈ cs → k ∉ fields_ids c
  | Some b => (∃ c, c ∈ cs ∧ k ∈ fields_ids c)
              ∧ (b = true ↔ ∃ c, c ∈ cs ∧ k ∈ fields_ids c
                                  ∧ keep_fields c data = true)
  end.
Proof.
  induction cs as [|c cs IH]; cbn [foldl].
  - intros c Hc. by apply elem_of_nil in Hc.
  - case_decide as Hk.
    + change (vote None (keep_fields c data))
        with (Some (keep_fields c data)).
      destruct (verdict_from_Some cs data k (keep_fields c data))
        as (b' & -> & Hb').
      split; [exists c; split; [left|done]|].
      rewrite Hb'. split.
      * intros [?|(c' & ? & ? & ?)].
        -- exists c. split; [left|done].
        -- exists c'. rewrite elem_of_cons; eauto.
      * intros (c' & Hc' & ? & ?).
        apply elem_of_cons in Hc' as [->|?]; [by left|]. right. eauto.
    + destruct (foldl _ None cs) as [b|].
      * destruct IH as [(c' & ? & ?) Hb]. split.
        -- exists c'. rewrite elem_of_cons; eauto.
        -- rewrite Hb. split.
           ++ intros (c'' & ? & ? & ?). exists c''.
              rewrite elem_of_cons; eauto.
           ++ intros (c'' & Hc'' & ? & ?).
              apply elem_of_cons in Hc'' as [->|?]; [done|]. eauto.
      * intros c' Hc'. apply elem_of_cons in Hc' as [->|?]; [done|].
        by apply IH.
Qed.
End CatalogFacts.

Section RemovedFields.
Context {Value : Type}.
Implicit Types (data : gmap string Value) (c : Condition Value).
Implicit Types (cs : list (Condition Value)) (k : string).

Lemma reduced_catalog_lookup cs data k :
  (any <$> condition_targets cs data) !! k
  = foldl (λ o c, if decide (k ∈ fields_ids c)
                  then vote o (keep_fields c data) else o)
          None cs.
Proof.
  rewrite lookup_fmap. unfold condition_targets.
  rewrite condition_targets_any_from. by rewrite lookup_empty.
Qed.

Lemma get_removed_fields_lookup cs data k :
  k ∈ get_removed_fields cs data
  ↔ (any <$> condition_targets cs data) !! k = Some false.
Proof.
  unfold get_removed_fields. rewrite list_elem_of_fmap. split.
  - intros ([k' b] & -> & Hin).
    apply list_elem_of_filter in Hin as [Hb Hin]. simpl in Hb. subst b.
    by apply elem_of_map_to_list in Hin.
  - intros Hk. exists (k, false). split; [done|].
    apply list_elem_of_filter. split; [done|].
    by apply elem_of_map_to_list.
Qed.

(** Membership in the removed fields, in terms of the conditions. *)
Lemma elem_of_get_removed_fields cs data k :
  k ∈ get_removed_fields cs data
  ↔ (∃ c, c ∈ cs ∧ k ∈ fields_ids c)
    ∧ (∀ c, c ∈ cs → k ∈ fields_ids c → keep_fields c data = false).
Proof.
  rewrite get_removed_fields_lookup, reduced_catalog_lookup.
  pose proof (verdict_from_None cs data k) as Hv.
  destruct (foldl _ None cs) as [b|].
  - destruct Hv as [Hex Hb]. split.
    + intros [= ->]. split; [done|]. intros c Hc Hk.
      destruct (keep_fields c data) eqn:Hkeep; [|done].
      assert (false = true) as ?; [|done]. apply Hb. eauto.
    + intros [_ Hall]. f_equal. destruct b; [|done].
      destruct Hb as [Hb _]. destruct (Hb eq_refl) as (c & Hc & Hk & Hkeep).
      rewrite (Hall c Hc Hk) in Hkeep. done.
  - split; [done|]. intros [(c & Hc & Hk) _]. by destruct (Hv c Hc).
Qed.

Lemma NoDup_get_removed_fields cs data :
  NoDup (get_removed_fields cs data).
Proof.
  unfold get_removed_fields.
  set (m := any <$> condition_targets cs data).
  pose proof (NoDup_fst_map_to_list m) as Hnd. revert Hnd.
  generalize (map_to_list m). intros l.
  induction l as [|[k b] l IH]; simpl; [done|].
  intros Hnd. apply NoDup_cons in Hnd as [Hk Hnd].
  rewrite filter_cons. simpl. case_decide; [|by apply IH].
  simpl. apply NoDup_cons. split; [|by apply IH].
  intros Hin. apply Hk. apply list_elem_of_fmap in Hin as (kv & -> & Hin).
  apply list_elem_of_filter in Hin as [_ Hin].
  by apply list_elem_of_fmap_2.
Qed.
End RemovedFields.

Section OrderedDictFacts.
Context {V : Type}.
Implicit Types (d : OrderedDict V) (k : string).

Lemma od_contains_true k d : od_contains k d = true ↔ k ∈ d.*1.
Proof. unfold od_contains. by rewrite bool_decide_eq_true. Qed.

Lemma od_get_None k d : od_get k d = None ↔ k ∉ d.*1.
Proof.
  induction d as [|[k' v] d IH]; simpl.
  - split; [intros _; apply not_elem_of_nil|done].
  - rewrite not_elem_of_cons. case_decide as Hk.
    + split; [done|]. intros [Hne _]. by destruct Hne.
    + rewrite IH. intuition congruence.
Qed.

Lemma od_get_Some_elem_of k v d : od_get k d = Some v → (k, v) ∈ d.
Proof.
  induction d as [|[k' v'] d IH]; simpl; [done|].
  case_decide as Hk.
  - intros [= ->]. subst k'. left.
  - intros Hget. right. by apply IH.
Qed.

Lemma od_remove_absent k d : k ∉ d.*1 → od_remove k d = d.
Proof.
  unfold od_remove. induction d as [|[k' v] d IH]; simpl; [done|].
  rewrite not_elem_of_cons. intros [Hne Hnin].
  rewrite filter_cons_True by (simpl; congruence). by rewrite IH.
Qed.

Lemma od_get_filter (P : string → Prop) `{!∀ x, Decision (P x)} k d :
  od_get k (filter (λ kv, P kv.1) d)
  = if decide (P k) then od_get k d else None.
Proof.
  induction d as [|[k' v] d IH]; simpl.
  - by case_decide.
  - rewrite filter_cons. simpl.
    destruct (decide (P k')) as [HP|HP]; simpl.
    + destruct (decide (k' = k)) as [->|Hne]; [|done].
      by destruct (decide (P k)).
    + rewrite IH. destruct (decide (k' = k)) as [->|Hne]; [|done].
      by destruct (decide (P k)).
Qed.

(** [del d[k]] succeeds whenever [k in d] has been checked. *)
Lemma od_del_guarded k d :
  (if od_contains k d then od_del k d else Ok d) = Ok (od_remove k d).
Proof.
  unfold od_del. destruct (od_contains k d) eqn:Hc; [done|].
  rewrite od_remove_absent; [done|].
  intros Hin. apply od_contains_true in Hin. congruence.
Qed.
End OrderedDictFacts.

Section CleanFacts.
Context {Value Error FormField : Type}.
Implicit Types (self : BaseDynamicForm Value Error FormField).
Implicit Types (k : string) (ks : list string).

Lemma remove_field_Ok self k :
  remove_field self k
  = Ok {| fields := od_remove k (fields self);
          cleaned_data := delete k (cleaned_data self);
          errors := delete k (errors self);
          _conditions := _conditions self |}.
Proof. unfold remove_field. by rewrite od_del_guarded. Qed.

(** What the removal loop leaves behind, for any list of slugs. *)
Lemma removal_loop ks self :
  ∃ self', for_each remove_field self ks = Ok self'
    ∧ fields self' = filter (λ kv, kv.1 ∉ ks) (fields self)
    ∧ (∀ k, cleaned_data self' !! k
            = if decide (k ∈ ks) then None else cleaned_data self !! k)
    ∧ (∀ k, errors self' !! k
            = if decide (k ∈ ks) then None else errors self !! k)
    ∧ _conditions self' = _conditions self.
Proof.
  revert self. induction ks as [|k0 ks IH]; intros self; cbn [for_each].
  - exists self. split_and!; try done.
    symmetry. induction (fields self) as [|kv d IHd]; [done|].
    rewrite filter_cons_True by apply not_elem_of_nil. by rewrite IHd.
  - rewrite remove_field_Ok. cbn [mbind result_bind].
    destruct (IH {| fields := od_remove k0 (fields self);
                    cleaned_data := delete k0 (cleaned_data self);
                    errors := delete k0 (errors self);
                    _conditions := _conditions self |})
      as (self' & Hloop & Hf & Hd & He & Hc).
    cbn [fields cleaned_data errors _conditions] in *.
    exists self'. split_and!; try done.
    + rewrite Hf. unfold od_remove. rewrite list_filter_filter.
      apply list_filter_iff. intros [k v]. simpl.
      rewrite not_elem_of_cons. tauto.
    + intros k. rewrite Hd.
      destruct (decide (k ∈ ks)) as [Hin|Hnin].
      * rewrite decide_True; [done|]. by right.
      * destruct (decide (k = k0)) as [->|Hne].
        -- rewrite decide_True by left. apply lookup_delete_eq.
        -- rewrite decide_False by (intros [?|?]%elem_of_cons; done).
           by apply lookup_delete_ne.
    + intros k. rewrite He.
      destruct (decide (k ∈ ks)) as [Hin|Hnin].
      * rewrite decide_True; [done|]. by right.
      * destruct (decide (k = k0)) as [->|Hne].
        -- rewrite decide_True by left. apply lookup_delete_eq.
        -- rewrite decide_False by (intros [?|?]%elem_of_cons; done).
           by apply lookup_delete_ne.
Qed.
End CleanFacts.

(** ** The removal pass *)

Section RemovalPass.
Context {Value Error FormField : Type}.
Implicit Types (self : BaseDynamicForm Value Error FormField).
Implicit Types (data : gmap string Value) (c : Condition Value).
Implicit Types (cs : list (Condition Value)) (k : string).

(** C1: a slug targeted by at least one condition is removed by
    [get_removed_fields] exactly when every condition that targets it
    answers [keep_fields(cleaned_data) = False]; as soon as one of
    them answers [True] the slug is kept. *)
Theorem targeted_slug_removed_iff_no_condition_keeps cs data k :
  (∃ c, c ∈ cs ∧ k ∈ fields_ids c) →
  (k ∈ get_removed_fields cs data
   ↔ ∀ c, c ∈ cs → k ∈ fields_ids c → keep_fields c data = false)
  ∧ ((∃ c, c ∈ cs ∧ k ∈ fields_ids c ∧ keep_fields c data = true)
     → k ∉ get_removed_fields cs data).
Proof.
  intros Htargeted. split.
  - rewrite elem_of_get_removed_fields. tauto.
  - intros (c & Hc & Hk & Hkeep) Hin.
    apply elem_of_get_removed_fields in Hin as [_ Hall].
    rewrite (Hall c Hc Hk) in Hkeep. done.
Qed.

(** C2: a slug that appears in no condition's [fields_ids] is never
    among the removed fields, whatever the cleaned data; [clean]
    therefore leaves its entry in [cleaned_data], in [errors] and in
    [fields] as it was. *)
Theorem untargeted_slug_never_removed self k :
  (∀ c, c ∈ _conditions self → k ∉ fields_ids c) →
  (∀ data, k ∉ get_removed_fields (_conditions self) data)
  ∧ ∃ self', clean self = Ok (cleaned_data self', self')
      ∧ cleaned_data self' !! k = cleaned_data self !! k
      ∧ errors self' !! k = errors self !! k
      ∧ od_get k (fields self') = od_get k (fields self).
Proof.
  intros Huntargeted.
  assert (∀ data, k ∉ get_removed_fields (_conditions self) data) as Hk.
  { intros data Hin.
    apply elem_of_get_removed_fields in Hin as [(c & Hc & Hin) _].
    by apply (Huntargeted c Hc). }
  split; [done|]. unfold clean.
  specialize (Hk (cleaned_data self)).
  set (removed := get_removed_fields _ _) in *.
  destruct (removal_loop removed self) as (self' & -> & Hf & Hd & He & _).
  exists self'. split; [done|].
  pose proof (od_get_filter (λ x, x ∉ removed) k (fields self)) as Hg.
  cbv beta in Hg. rewrite Hd, He, Hf, Hg.
  rewrite !decide_False by done. by rewrite decide_True by done.
Qed.

(** C3: permuting the condition list leaves the removed fields the
    same set, for any cleaned data. *)
Theorem removed_fields_permutation_invariant cs cs' data :
  cs ≡ₚ cs' →
  (∀ k, k ∈ get_removed_fields cs data ↔ k ∈ get_removed_fields cs' data)
  ∧ get_removed_fields cs data ≡ₚ get_removed_fields cs' data.
Proof.
  intros Hperm.
  assert (∀ k, k ∈ get_removed_fields cs data
               ↔ k ∈ get_removed_fields cs' data) as Hsame.
  { intros k. rewrite !elem_of_get_removed_fields.
    by setoid_rewrite Hperm. }
  split; [done|].
  apply NoDup_Permutation; auto using NoDup_get_removed_fields.
Qed.

(** C5: [clean] deletes every removed slug from [cleaned_data], from
    [errors] and from [fields], keeps every other entry of the three
    mappings (and the order of the remaining fields), and returns the
    pruned [cleaned_data]: exactly the slugs that were not removed,
    with their validated values. *)
Theorem clean_prunes_removed_fields_only self :
  let removed :=
    get_removed_fields (_conditions self) (cleaned_data self) in
  ∃ returned self',
    clean self = Ok (returned, self')
    ∧ returned = cleaned_data self'
    ∧ (∀ k, k ∈ removed →
            cleaned_data self' !! k = None
            ∧ errors self' !! k = None
            ∧ od_get k (fields self') = None)
    ∧ (∀ k, k ∉ removed →
            cleaned_data self' !! k = cleaned_data self !! k
            ∧ errors self' !! k = errors self !! k
            ∧ od_get k (fields self') = od_get k (fields self))
    ∧ fields self' = filter (λ kv, kv.1 ∉ removed) (fields self)
    ∧ (∀ k v, returned !! k = Some v
              ↔ (k ∉ removed) ∧ cleaned_data self !! k = Some v)
    ∧ dom returned = dom (cleaned_data self) ∖ list_to_set removed.
Proof.
  intros removed. unfold clean. fold removed.
  destruct (removal_loop removed self) as (self' & -> & Hf & Hd & He & _).
  exists (cleaned_data self'), self'. split_and!; try done.
  - intros k Hk.
    pose proof (od_get_filter (λ x, x ∉ removed) k (fields self)) as Hg.
    cbv beta in Hg. rewrite Hd, He, Hf, Hg.
    rewrite !decide_True by done. by rewrite decide_False by tauto.
  - intros k Hk.
    pose proof (od_get_filter (λ x, x ∉ removed) k (fields self)) as Hg.
    cbv beta in Hg. rewrite Hd, He, Hf, Hg.
    rewrite !decide_False by done. by rewrite decide_True by done.
  - intros k v. rewrite Hd. case_decide; [|tauto].
    split; [done|]. by intros [? _].
  - apply set_eq. intros k.
    rewrite elem_of_difference, !elem_of_dom, elem_of_list_to_set, Hd.
    case_decide; [|tauto]. split; [by intros [? ?]|tauto].
Qed.

(** C8: the removal loop of [clean] never raises, whatever slugs it
    is given: popping from [cleaned_data] and [errors] takes a
    default, and [del self.fields[field_id]], which raises [KeyError]
    on a missing key, runs only under [field_id in self.fields]. *)
Theorem removal_loop_never_raises :
  (∀ ks self, ∃ self', for_each remove_field self ks = Ok self')
  ∧ (∀ self, ∃ returned self', clean self = Ok (returned, self'))
  ∧ (∀ self k,
       od_contains k (fields self) = false →
       od_del k (fields self) = Raise (KeyError k)
       ∧ remove_field self k
         = Ok {| fields := fields self;
                 cleaned_data := delete k (cleaned_data self);
                 errors := delete k (errors self);
                 _conditions := _conditions self |}).
Proof.
  split_and!.
  - intros ks self. destruct (removal_loop ks self) as (self' & ? & _).
    by exists self'.
  - intros self. unfold clean.
    destruct (removal_loop
                (get_removed_fields (_conditions self) (cleaned_data self))
                self) as (self' & -> & _).
    by exists (cleaned_data self'), self'.
  - intros self k Hk. unfold remove_field, od_del. by rewrite Hk.
Qed.
End RemovalPass.

(** ** Repeating the pass *)

Section Repeatable.
Context {Value W : Type}.
Implicit Types (cs : list (EffCondition Value W)).
Implicit Types (data : gmap string Value) (w : W).

Lemma eff_catalog_state_independent cs data targets w1 w2 :
  Forall pure_keep_fields cs →
  (foldl (λ acc condition,
            let '(keep, w') := eff_keep_fields condition acc.2 data in
            (foldl (fill_catalog keep) acc.1 (eff_fields_ids condition), w'))
         (targets, w1) cs).1
  = (foldl (λ acc condition,
              let '(keep, w') := eff_keep_fields condition acc.2 data in
              (foldl (fill_catalog keep) acc.1 (eff_fields_ids condition), w'))
           (targets, w2) cs).1.
Proof.
  intros Hpure. revert targets w1 w2.
  induction Hpure as [|c cs Hc _ IH]; intros targets w1 w2; cbn [foldl].
  - done.
  - cbn [fst snd]. specialize (Hc w1 w2 data).
    destruct (eff_keep_fields c w1 data) as [keep1 w1'].
    destruct (eff_keep_fields c w2 data) as [keep2 w2'].
    simpl in Hc. subst keep2. apply IH.
Qed.

Lemma eff_get_removed_fields_fst cs data w :
  (eff_get_removed_fields cs data w).1
  = (filter (λ kv, kv.2 = false)
       (map_to_list (any <$> (eff_condition_targets cs data w).1))).*1.
Proof.
  unfold eff_get_removed_fields.
  by destruct (eff_condition_targets cs data w).
Qed.

(** C4: when the verdict of every condition is a function of the
    cleaned data alone, [get_removed_fields] run a second time on the
    same cleaned data and conditions (in whatever state the first run
    has left the conditions) yields the same removed fields. *)
Theorem pure_conditions_give_repeatable_pass cs data w :
  Forall pure_keep_fields cs →
  let first := eff_get_removed_fields cs data w in
  let second := eff_get_removed_fields cs data first.2 in
  first.1 = second.1
  ∧ ∀ w', (eff_get_removed_fields cs data w').1 = first.1.
Proof.
  intros Hpure first second.
  assert (∀ w1 w2, (eff_get_removed_fields cs data w1).1
                   = (eff_get_removed_fields cs data w2).1) as Hsame.
  { intros w1 w2. rewrite !eff_get_removed_fields_fst.
    unfold eff_condition_targets.
    by rewrite (eff_catalog_state_independent cs data ∅ w1 w2). }
  split; [apply Hsame|]. intros w'. apply Hsame.
Qed.

(** On conditions of the pure model the effectful pass is the pure
    one and leaves the state alone. *)
Lemma eff_get_removed_fields_lift (cs0 : list (Condition Value)) data w :
  eff_get_removed_fields (lift_condition <$> cs0) data w
  = (get_removed_fields cs0 data, w).
Proof.
  unfold eff_get_removed_fields, get_removed_fields.
  enough (∀ targets,
    foldl (λ acc condition,
             let '(keep, w') := eff_keep_fields condition acc.2 data in
             (foldl (fill_catalog keep) acc.1 (eff_fields_ids condition), w'))
          (targets, w) (lift_condition <$> cs0)
    = (foldl (λ targets condition,
                let keep := keep_fields condition data in
                foldl (fill_catalog keep) targets (fields_ids condition))
             targets cs0, w)) as Hfold.
  { unfold eff_condition_targets, condition_targets. by rewrite Hfold. }
  induction cs0 as [|c cs0 IH]; intros targets; [done|].
  cbn [fmap list_fmap foldl]. apply IH.
Qed.
End Repeatable.

(** ** Ordering of the field definitions *)

Section OrderBy.
Context {A : Type} (key : A → Z).
Implicit Types (x : A) (l : list A).

Lemma insert_by_Permutation x l : insert_by key x l ≡ₚ x :: l.
Proof.
  induction l as [|y l IH]; simpl; [done|].
  case_decide; [done|]. rewrite IH. apply Permutation_swap.
Qed.

Lemma order_by_Permutation l : order_by key l ≡ₚ l.
Proof.
  unfold order_by. induction l as [|x l IH]; simpl; [done|].
  by rewrite insert_by_Permutation, IH.
Qed.

Lemma insert_by_HdRel a x l :
  (key a ≤ key x)%Z →
  HdRel (λ a b, (key a ≤ key b)%Z) a l →
  HdRel (λ a b, (key a ≤ key b)%Z) a (insert_by key x l).
Proof.
  intros Hax Hal. destruct l as [|y l]; simpl.
  - by constructor.
  - case_decide; constructor; [done|]. by inversion Hal.
Qed.

Lemma insert_by_Sorted x l :
  Sorted (λ a b, (key a ≤ key b)%Z) l →
  Sorted (λ a b, (key a ≤ key b)%Z) (insert_by key x l).
Proof.
  induction 1 as [|y l Hsorted IH Hhd]; simpl.
  - repeat constructor.
  - case_decide as Hle.
    + constructor; [by constructor|]. by constructor.
    + constructor; [done|]. apply insert_by_HdRel; [lia|done].
Qed.

Lemma order_by_Sorted l : Sorted (λ a b, (key a ≤ key b)%Z) (order_by key l).
Proof.
  unfold order_by. induction l as [|x l IH]; simpl.
  - constructor.
  - by apply insert_by_Sorted.
Qed.
End OrderBy.

Section OrderedDictUpdates.
Context {V : Type}.
Implicit Types (d : OrderedDict V) (k : string).

Lemma od_get_od_set_eq k v d : od_get k (od_set k v d) = Some v.
Proof.
  induction d as [|[k' v'] d IH]; simpl.
  - by rewrite decide_True.
  - destruct (decide (k' = k)) as [->|Hne]; simpl.
    + by rewrite decide_True.
    + by rewrite decide_False.
Qed.

Lemma od_set_fresh k v d : k ∉ d.*1 → od_set k v d = d ++ [(k, v)].
Proof.
  induction d as [|[k' v'] d IH]; simpl; [done|].
  rewrite not_elem_of_cons. intros [Hne Hnin].
  rewrite decide_False by done. by rewrite IH.
Qed.

Lemma od_get_omap_entry {A} (key : A → string)
    (h : A → option (string * V)) (l : list A) (x : A) :
  (∀ y kv, h y = Some kv → kv.1 = key y) →
  NoDup (key <$> l) → x ∈ l →
  od_get (key x) (omap h l) = snd <$> h x.
Proof.
  intros Hkey. induction l as [|y l IH]; [by intros _ ?%elem_of_nil|].
  rewrite fmap_cons, NoDup_cons. intros [Hy Hnd] Hx.
  assert (∀ k, k ∈ (omap h l).*1 → k ∈ key <$> l) as Hkeys.
  { intros k ((k' & v) & -> & Hin)%list_elem_of_fmap.
    apply list_elem_of_omap in Hin as (z & Hz & Hhz).
    apply Hkey in Hhz. simpl in *. subst k'.
    by apply list_elem_of_fmap_2. }
  cbn [omap list_omap].
  destruct (h y) as [[k v]|] eqn:Hhy.
  - pose proof (Hkey _ _ Hhy) as Hk. simpl in Hk. subst k. simpl.
    destruct (decide (key y = key x)) as [Heq|Hne].
    + apply elem_of_cons in Hx as [->|Hx]; [by rewrite Hhy|].
      destruct Hy. rewrite Heq. by apply list_elem_of_fmap_2.
    + apply elem_of_cons in Hx as [->|Hx]; [done|]. by apply IH.
  - apply elem_of_cons in Hx as [->|Hx]; [|by apply IH].
    rewrite Hhy. simpl. apply od_get_None. intros Hin. by apply Hy, Hkeys.
Qed.
End OrderedDictUpdates.

(** ** The generated form class *)

Section FormClassFacts.
Context {Value FormField CondSpec : Type}.
Implicit Types (f : FormFieldFactory FormField) (role : option string).
Implicit Types (defs : list FieldDef) (field : FieldDef).
Implicit Types (attrs : OrderedDict (attr Value FormField)).

Lemma loop_attrs f role defs attrs :
  NoDup (slug <$> defs) →
  (∀ field, field ∈ defs → slug field ∉ attrs.*1) →
  foldl (add_field f role) attrs defs
  = attrs ++ omap (λ field, (λ form_field, (slug field, AttrField form_field))
                              <$> produce f field role) defs.
Proof.
  revert attrs. induction defs as [|field defs IH]; intros attrs.
  - intros _ _. simpl. by rewrite app_nil_r.
  - rewrite fmap_cons, NoDup_cons. intros [Hfresh Hnd] Hattrs.
    cbn [foldl omap list_omap]. unfold add_field at 2.
    destruct (produce f field role) as [form_field|]; simpl.
    + rewrite od_set_fresh by (apply Hattrs; left).
      rewrite IH, <-app_assoc; [done..|].
      intros field' Hin. rewrite fmap_app, elem_of_app. simpl.
      intros [Hold|Hnew%list_elem_of_singleton].
      * revert Hold. apply Hattrs. by right.
      * apply Hfresh. rewrite <-Hnew. by apply list_elem_of_fmap_2.
    + apply IH; [done|]. intros field' Hin. apply Hattrs. by right.
Qed.

Lemma loop_attrs_keys f role defs k :
  k ∈ (omap (λ field,
               (λ form_field, (slug field, AttrField (Value:=Value) form_field))
                 <$> produce f field role) defs).*1 →
  k ∈ slug <$> defs.
Proof.
  intros ([k' a] & -> & Hin)%list_elem_of_fmap.
  apply list_elem_of_omap in Hin as (field & Hfield & Hentry).
  destruct (produce f field role); simplify_eq/=.
  by apply list_elem_of_fmap_2.
Qed.

Lemma loop_attrs_NoDup f role defs :
  NoDup (slug <$> defs) →
  NoDup (omap (λ field,
                 (λ form_field, (slug field, AttrField (Value:=Value) form_field))
                   <$> produce f field role) defs).*1.
Proof.
  induction defs as [|field defs IH]; [constructor|].
  rewrite fmap_cons, NoDup_cons. intros [Hfresh Hnd].
  cbn [omap list_omap].
  destruct (produce f field role) as [form_field|] eqn:Hp; simpl.
  - apply NoDup_cons. split; [|by apply IH].
    intros Hin. by apply Hfresh, (loop_attrs_keys f role).
  - by apply IH.
Qed.

(** Assigning the compiled conditions drops a field stored under the
    same attribute name and no other. *)
Lemma declared_fields_set_conditions k cs attrs :
  NoDup attrs.*1 →
  declared_fields (od_set k (AttrConditions cs) attrs)
  = declared_fields (od_remove k attrs).
Proof.
  unfold declared_fields, od_remove.
  induction attrs as [|[k' a] attrs IH]; [done|].
  rewrite fmap_cons, NoDup_cons. simpl. intros [Hk' Hnd].
  destruct (decide (k' = k)) as [->|Hne].
  - rewrite filter_cons_False by (simpl; tauto).
    cbn [omap list_omap snd].
    pose proof (od_remove_absent k attrs Hk') as Hsame.
    unfold od_remove in Hsame. by rewrite Hsame.
  - rewrite filter_cons_True by done.
    cbn [omap list_omap]. by rewrite IH.
Qed.

Lemma declared_fields_loop f role defs :
  declared_fields
    (od_remove "_conditions"
       (omap (λ field,
                (λ form_field, (slug field, AttrField (Value:=Value) form_field))
                  <$> produce f field role) defs))
  = omap (field_entry f role) defs.
Proof.
  unfold declared_fields, od_remove, field_entry.
  induction defs as [|field defs IH]; [done|].
  cbn [omap list_omap].
  destruct (produce f field role) as [form_field|]; simpl.
  - rewrite filter_cons. simpl.
    destruct (decide (slug field = "_conditions")) as [Heq|Hne].
    + rewrite decide_False by tauto. apply IH.
    + rewrite decide_True by done. cbn [omap list_omap snd fst].
      by rewrite IH.
  - rewrite IH. by case_decide.
Qed.

(** The field mapping of the class produced from the visited field
    definitions [defs], whatever the compiled conditions are. *)
Lemma base_fields_of_loop f role defs (cs : list (Condition Value)) :
  NoDup (slug <$> defs) →
  base_fields
    (new_form_class
       (od_set "_conditions" (AttrConditions cs)
               (foldl (add_field f role) [] defs)))
  = omap (field_entry f role) defs.
Proof.
  intros Hnd. unfold new_form_class. cbn [base_fields].
  rewrite loop_attrs; [|done|intros; apply not_elem_of_nil].
  rewrite app_nil_l, declared_fields_set_conditions
    by by apply loop_attrs_NoDup.
  apply declared_fields_loop.
Qed.

Lemma field_entry_keys f role defs :
  (omap (field_entry f role) defs).*1
  = slug <$> filter (λ field, is_Some (produce f field role)
                              ∧ slug field ≠ "_conditions") defs.
Proof.
  induction defs as [|field defs IH]; [done|].
  cbn [omap list_omap]. rewrite filter_cons. unfold field_entry at 1.
  destruct (decide (slug field = "_conditions")) as [Heq|Hne].
  - rewrite decide_False by tauto. done.
  - destruct (produce f field role) as [form_field|]; simpl.
    + rewrite decide_True by (split; [by eexists|done]).
      rewrite fmap_cons. f_equal. apply IH.
    + exact IH.
Qed.

Lemma field_entry_lookup f role defs field :
  NoDup (slug <$> defs) → field ∈ defs →
  od_get (slug field) (omap (field_entry f role) defs)
  = if decide (slug field = "_conditions") then None
    else produce f field role.
Proof.
  intros Hnd Hin.
  rewrite (od_get_omap_entry slug (field_entry f role)); [|..|done|done].
  - unfold field_entry. case_decide; [done|].
    by destruct (produce f field role).
  - intros y kv. unfold field_entry. case_decide; [done|].
    destruct (produce f y role); by intros [= <-].
Qed.
End FormClassFacts.

Section Generators.
Context {Value FormField CondSpec : Type}.
Context (default_factory : FormFieldFactory FormField).
Context (compile : OrderedDict (attr Value FormField) → CondSpec → Condition Value).
Implicit Types (role : option string) (field : FieldDef).
Implicit Types (field_factory : option (FormFieldFactory FormField)).

Lemma slug_prefetch_related role (defs : list FieldDef) :
  slug <$> (prefetch_related role <$> defs) = slug <$> defs.
Proof. rewrite <-list_fmap_compose. by apply list_fmap_ext. Qed.

Lemma formidable_iteration_NoDup (formidable : FormidableObject CondSpec) role :
  NoDup (slug <$> formidable_fields formidable) →
  NoDup (slug <$> formidable_iteration formidable role).
Proof.
  intros Hnd. unfold formidable_iteration.
  rewrite order_by_Permutation. by rewrite slug_prefetch_related.
Qed.

(** C6, as the code has it: [get_dynamic_form_class] visits the field
    definitions of the formidable object in ascending [order];
    [get_dynamic_form_class_from_schema] visits them as the schema
    lists them.  In both, slugs being unique, the field mapping of the
    produced class holds, in visiting order, the fields the factory has
    produced: a definition the factory skips has no entry, and every
    other one is there under its slug, the attribute name
    [_conditions] apart. *)
Theorem generated_fields_follow_the_visit
    (formidable : FormidableObject CondSpec) (schema : Schema CondSpec)
    role field_factory :
  NoDup (slug <$> formidable_fields formidable) →
  NoDup (slug <$> schema_fields schema) →
  let f := default default_factory field_factory in
  let visited := formidable_iteration formidable role in
  Sorted (λ a b, (order a ≤ order b)%Z) visited
  ∧ visited ≡ₚ prefetch_related role <$> formidable_fields formidable
  ∧ holds_produced_fields f role visited
      (base_fields (get_dynamic_form_class default_factory compile
                      formidable role field_factory))
  ∧ schema_iteration schema = schema_fields schema
  ∧ holds_produced_fields f None (schema_fields schema)
      (base_fields (get_dynamic_form_class_from_schema default_factory
                      compile schema field_factory)).
Proof.
  intros Hformidable Hschema f visited.
  pose proof (formidable_iteration_NoDup formidable role Hformidable) as Hnd.
  fold visited in Hnd.
  assert (∀ role' defs mapping,
            NoDup (slug <$> defs) →
            mapping = omap (field_entry f role') defs →
            holds_produced_fields f role' defs mapping) as Hholds.
  { intros role' defs mapping Hdefs ->. split.
    - apply field_entry_keys.
    - intros field Hin. rewrite field_entry_lookup by done.
      split; intros H; case_decide; done. }
  split_and!.
  - apply order_by_Sorted.
  - apply order_by_Permutation.
  - apply Hholds; [done|]. by apply base_fields_of_loop.
  - done.
  - apply Hholds; [done|]. by apply base_fields_of_loop.
Qed.

Lemma get_removed_fields_nil (data : gmap string Value) :
  get_removed_fields [] data = [].
Proof.
  unfold get_removed_fields, condition_targets. cbn [foldl].
  by rewrite fmap_empty, map_to_list_empty.
Qed.

(** C9: a schema whose ['conditions'] key is absent, null or an empty
    list yields a form class with no condition, and [clean] on an
    instance of that class removes nothing, whatever was submitted. *)
Theorem schema_without_conditions_removes_nothing
    (schema : Schema CondSpec) field_factory :
  schema_conditions schema = Absent
  ∨ schema_conditions schema = Null
  ∨ schema_conditions schema = Present [] →
  let form_class :=
    get_dynamic_form_class_from_schema default_factory compile schema
                                       field_factory in
  class_conditions form_class = []
  ∧ ∀ (Error : Type) (data : gmap string Value) (errs : gmap string Error),
      let self := instantiate form_class data errs in
      get_removed_fields (_conditions self) data = []
      ∧ clean self = Ok (data, self).
Proof.
  intros Hconditions form_class.
  assert (class_conditions form_class = []) as Hnone.
  { unfold form_class, get_dynamic_form_class_from_schema, new_form_class,
      schema_attrs.
    cbn [class_conditions]. rewrite od_get_od_set_eq.
    by destruct Hconditions as [->| [->| ->]]. }
  split; [done|]. intros Error data errs self.
  unfold clean. cbn [_conditions cleaned_data self instantiate].
  rewrite Hnone, get_removed_fields_nil. split; [done|].
  cbn [for_each mbind result_bind]. unfold self, instantiate.
  by rewrite Hnone.
Qed.
End Generators.

(** ** Saving a declared form *)

Section Saving.
Context {DeclaredField : Type}.
Context (field_to_formidable :
  DeclaredField → Formidable → Z → string → list FieldRow → list FieldRow).
Implicit Types (cls : OrderedDict DeclaredField) (db : Database).
Implicit Types (form : Formidable).

Lemma truthy_Some (s : string) : s ≠ "" → truthy (Some s) = true.
Proof.
  intros Hs. unfold truthy. destruct (String.eqb_spec s ""); done.
Qed.

Lemma str_or_truthy (a : option string) (b : string) :
  str_or a b = if truthy a then default "" a else b.
Proof.
  destruct a as [s|]; simpl; [|done]. by destruct (String.eqb s "").
Qed.

Lemma save_declared_fields_formidables cls form db :
  formidables (save_declared_fields field_to_formidable cls form db)
  = formidables db.
Proof.
  unfold save_declared_fields. by destruct (foldl _ _ cls).
Qed.

(** C7: without an instance and without a label, [to_formidable]
    raises [ValueError("Label is required on creation mode")] and the
    database is as it was: no form object has been created.  Without
    an instance and with a label, it creates one formidable object
    carrying that label and the given description, the empty string
    when there is none, and returns it. *)
Theorem to_formidable_creation cls label description db :
  (truthy label = false →
   to_formidable field_to_formidable cls label description None db
   = (Raise (ValueError "Label is required on creation mode"), db))
  ∧ (∀ l, label = Some l → l ≠ "" →
     ∃ form db',
       to_formidable field_to_formidable cls label description None db
       = (Ok form, db')
       ∧ form = {| pk := next_pk db; label := l;
                   description := str_or description "" |}
       ∧ formidables db' = formidables db ++ [form]
       ∧ (truthy description = false → Model.description form = "")).
Proof.
  split.
  - intros Hlabel. unfold to_formidable. by rewrite Hlabel.
  - intros l -> Hl. unfold to_formidable.
    rewrite truthy_Some by done. cbn [negb default objects_create].
    eexists _, _. split_and!; [done..| |].
    + by rewrite save_declared_fields_formidables.
    + intros Hd. cbn [Model.description].
      rewrite str_or_truthy. by rewrite Hd.
Qed.

(** C10: with an existing instance, [get_clean_form] deletes every
    field row attached to it and only those.  When the label or the
    description given is non-empty, both columns are updated, in the
    row of that primary key and on the returned object, an empty
    argument standing for the value the instance holds; when both are
    empty, neither the rows nor the object change.  [to_formidable]
    then saves the declared fields on the form so cleaned. *)
Theorem get_clean_form_effect cls form label description db :
  ∃ form' db',
    get_clean_form form label description db = (form', db')
    ∧ to_formidable field_to_formidable cls label description (Some form) db
      = (Ok form', save_declared_fields field_to_formidable cls form' db')
    ∧ field_rows db' = filter (λ row, form_id row ≠ pk form) (field_rows db)
    ∧ (∀ row, row ∈ field_rows db' → form_id row ≠ pk form)
    ∧ pk form' = pk form
    ∧ (truthy description || truthy label = true →
       Model.label form'
       = (if truthy label then default "" label else Model.label form)
       ∧ Model.description form'
         = (if truthy description then default "" description
            else Model.description form)
       ∧ formidables db'
         = (λ row, if decide (pk row = pk form)
                   then {| pk := pk row; label := Model.label form';
                           description := Model.description form' |}
                   else row) <$> formidables db)
    ∧ (truthy description || truthy label = false →
       form' = form ∧ formidables db' = formidables db).
Proof.
  unfold to_formidable, get_clean_form.
  destruct (truthy description || truthy label) eqn:Hupdate.
  - eexists _, _. split_and!; try done.
    + intros row Hrow. cbn [field_rows objects_update delete_fields] in Hrow.
      by apply list_elem_of_filter in Hrow as [? _].
    + intros _. cbn [Model.label Model.description].
      by rewrite !str_or_truthy.
  - eexists _, _. split_and!; try done.
    intros row Hrow. cbn [field_rows delete_fields] in Hrow.
    by apply list_elem_of_filter in Hrow as [? _].
Qed.
End Saving.

(** * The properties on concrete forms *)

Import Scenario.

(** The spec's scenario: [C] is targeted by keep-if-[A] and
    keep-if-[B]; with [A] false and [B] true nothing is removed. *)
Example display_wins_on_conflict :
  get_removed_fields conditions_on_C submission = [].
Proof. vm_compute. reflexivity. Qed.

(** With a single condition on [A], itself false, the targets that are
    fields go and the rest of the form stays. *)
Example one_false_condition_removes_its_targets :
  clean {| fields := fields form; cleaned_data := submission;
           errors := {[ "D" := "required" ]};
           _conditions := [keep_if "A" ["C"; "D"; "Z"]] |}
  = Ok ({[ "A" := false; "B" := true ]},
        {| fields := [("A", "boolean"); ("B", "boolean")];
           cleaned_data := {[ "A" := false; "B" := true ]};
           errors := ∅;
           _conditions := [keep_if "A" ["C"; "D"; "Z"]] |}).
Proof. vm_compute. reflexivity. Qed.

(** [del] on a key that is not there raises. *)
Example od_del_missing_key :
  od_del "C" [("A", "boolean")] = Raise (KeyError "C").
Proof. reflexivity. Qed.

(** A condition whose verdict is not a function of the cleaned data
    makes two runs in a row disagree. *)
Example impure_condition_is_not_repeatable :
  let first := eff_get_removed_fields [alternating ["C"]] submission false in
  let second := eff_get_removed_fields [alternating ["C"]] submission first.2 in
  first.1 = ["C"] ∧ second.1 = [].
Proof. vm_compute. done. Qed.

(** A field whose slug is the attribute name of the conditions is
    overwritten by them and is missing from the class. *)
Example reserved_slug_is_overwritten :
  produce factory (field_def "_conditions" 1 []) None = Some "text"
  ∧ base_fields (get_dynamic_form_class factory compile
                   formidable_with_reserved_slug None None) = [].
Proof. vm_compute. done. Qed.

(** The rows of [formidable] are visited by ascending order and the
    hidden one is left out. *)
Example formidable_fields_by_order :
  slug <$> formidable_iteration formidable (Some "guest") = ["a"; "b"; "secret"]
  ∧ base_fields (get_dynamic_form_class factory compile formidable
                   (Some "guest") None)
    = [("a", "text"); ("b", "text")].
Proof. vm_compute. done. Qed.

(** C6, counterexample: on a schema that lists [b] (order 2) before
    [a] (order 1), [get_dynamic_form_class_from_schema] visits the
    definitions as listed, not by ascending order, and the class has
    its fields in that order. *)
Lemma schema_fields_are_visited_as_listed :
  order <$> schema_iteration schema = [2%Z; 1%Z]
  ∧ ¬ Sorted (λ a b, (order a ≤ order b)%Z) (schema_iteration schema)
  ∧ (base_fields (get_dynamic_form_class_from_schema factory compile
                    schema None)).*1 = ["b"; "a"].
Proof.
  split_and!; [done| |by vm_compute].
  intros Hsorted. unfold schema_iteration, schema in Hsorted.
  cbn [schema_fields] in Hsorted.
  apply Sorted_inv in Hsorted as [_ Hhd].
  apply HdRel_inv in Hhd. vm_compute in Hhd. by apply Hhd.
Qed.

(** The conditions on [C] do target [C]. *)
Lemma targeted_slug_removed_iff_no_condition_keeps_witness :
  (∃ c, c ∈ conditions_on_C ∧ "C" ∈ fields_ids c)
  ∧ ("C" ∈ get_removed_fields conditions_on_C submission
     ↔ ∀ c, c ∈ conditions_on_C → "C" ∈ fields_ids c
            → keep_fields c submission = false)
  ∧ ((∃ c, c ∈ conditions_on_C ∧ "C" ∈ fields_ids c
           ∧ keep_fields c submission = true)
     → "C" ∉ get_removed_fields conditions_on_C submission).
Proof.
  assert (∃ c, c ∈ conditions_on_C ∧ "C" ∈ fields_ids c) as Htargeted.
  { exists (keep_if "A" ["C"]). split; [left|simpl; left]. }
  split; [exact Htargeted|].
  exact (targeted_slug_removed_iff_no_condition_keeps
           conditions_on_C submission "C" Htargeted).
Defined.

(** No condition of [form] targets [D]. *)
Lemma untargeted_slug_never_removed_witness :
  (∀ c, c ∈ _conditions form → "D" ∉ fields_ids c)
  ∧ (∀ data, "D" ∉ get_removed_fields (_conditions form) data)
  ∧ ∃ self', clean form = Ok (cleaned_data self', self')
      ∧ cleaned_data self' !! "D" = cleaned_data form !! "D"
      ∧ errors self' !! "D" = errors form !! "D"
      ∧ od_get "D" (fields self') = od_get "D" (fields form).
Proof.
  assert (∀ c, c ∈ _conditions form → "D" ∉ fields_ids c) as Huntargeted.
  { intros c Hc. simpl in Hc.
    apply elem_of_cons in Hc as [->|Hc];
      [|apply elem_of_cons in Hc as [->|Hc]; [|by apply elem_of_nil in Hc]];
      simpl; intros Hin; apply list_elem_of_singleton in Hin; discriminate. }
  split; [exact Huntargeted|].
  exact (untargeted_slug_never_removed form "D" Huntargeted).
Defined.

(** The two conditions on [C], swapped. *)
Lemma removed_fields_permutation_invariant_witness :
  conditions_on_C ≡ₚ [keep_if "B" ["C"]; keep_if "A" ["C"]]
  ∧ (∀ k, k ∈ get_removed_fields conditions_on_C submission
          ↔ k ∈ get_removed_fields [keep_if "B" ["C"]; keep_if "A" ["C"]]
                                   submission)
  ∧ get_removed_fields conditions_on_C submission
    ≡ₚ get_removed_fields [keep_if "B" ["C"]; keep_if "A" ["C"]] submission.
Proof.
  assert (conditions_on_C ≡ₚ [keep_if "B" ["C"]; keep_if "A" ["C"]]) as Hswap.
  { unfold conditions_on_C. apply perm_swap. }
  split; [exact Hswap|].
  exact (removed_fields_permutation_invariant
           conditions_on_C [keep_if "B" ["C"]; keep_if "A" ["C"]]
           submission Hswap).
Defined.

(** Conditions that count their calls still have pure verdicts. *)
Lemma pure_conditions_give_repeatable_pass_witness :
  Forall pure_keep_fields
         [counting_keep_if "A" ["C"]; counting_keep_if "B" ["C"; "D"]]
  ∧ (let first :=
       eff_get_removed_fields
         [counting_keep_if "A" ["C"]; counting_keep_if "B" ["C"; "D"]]
         submission 0 in
     let second :=
       eff_get_removed_fields
         [counting_keep_if "A" ["C"]; counting_keep_if "B" ["C"; "D"]]
         submission first.2 in
     first.1 = second.1
     ∧ ∀ w', (eff_get_removed_fields
                [counting_keep_if "A" ["C"]; counting_keep_if "B" ["C"; "D"]]
                submission w').1 = first.1).
Proof.
  assert (Forall pure_keep_fields
            [counting_keep_if "A" ["C"]; counting_keep_if "B" ["C"; "D"]])
    as Hpure.
  { constructor; [|constructor; [|constructor]];
      intros w1 w2 data; reflexivity. }
  split; [exact Hpure|].
  exact (pure_conditions_give_repeatable_pass
           [counting_keep_if "A" ["C"]; counting_keep_if "B" ["C"; "D"]]
           submission 0 Hpure).
Defined.

(** The slugs of [formidable] and of [schema] are unique. *)
Lemma generated_fields_follow_the_visit_witness :
  NoDup (slug <$> formidable_fields formidable)
  ∧ NoDup (slug <$> schema_fields schema)
  ∧ (let f := default factory None in
     let visited := formidable_iteration formidable (Some "guest") in
     Sorted (λ a b, (order a ≤ order b)%Z) visited
     ∧ visited ≡ₚ prefetch_related (Some "guest")
                    <$> formidable_fields formidable
     ∧ holds_produced_fields f (Some "guest") visited
         (base_fields (get_dynamic_form_class factory compile
                         formidable (Some "guest") None))
     ∧ schema_iteration schema = schema_fields schema
     ∧ holds_produced_fields f None (schema_fields schema)
         (base_fields (get_dynamic_form_class_from_schema factory
                         compile schema None))).
Proof.
  assert (NoDup (slug <$> formidable_fields formidable)) as Hformidable.
  { apply (bool_decide_unpack _). vm_compute. exact I. }
  assert (NoDup (slug <$> schema_fields schema)) as Hschema.
  { apply (bool_decide_unpack _). vm_compute. exact I. }
  split; [exact Hformidable|]. split; [exact Hschema|].
  exact (generated_fields_follow_the_visit factory compile formidable schema
           (Some "guest") None Hformidable Hschema).
Defined.

(** [schema] has no ['conditions'] key. *)
Lemma schema_without_conditions_removes_nothing_witness :
  (schema_conditions schema = Absent
   ∨ schema_conditions schema = Null
   ∨ schema_conditions schema = Present [])
  ∧ (let form_class :=
       get_dynamic_form_class_from_schema factory compile schema None in
     class_conditions form_class = []
     ∧ ∀ (Error : Type) (data : gmap string bool) (errs : gmap string Error),
         let self := instantiate form_class data errs in
         get_removed_fields (_conditions self) data = []
         ∧ clean self = Ok (data, self)).
Proof.
  assert (schema_conditions schema = Absent
          ∨ schema_conditions schema = Null
          ∨ schema_conditions schema = Present []) as Hnone.
  { left. reflexivity. }
  split; [exact Hnone|].
  exact (schema_without_conditions_removes_nothing factory compile schema
           None Hnone).
Defined.

(** Creation without a label, and with the label ["Poll"]. *)
Lemma to_formidable_creation_witness :
  to_formidable save_row declared None (Some "A poll") None database
  = (Raise (ValueError "Label is required on creation mode"), database)
  ∧ ∃ form db',
      to_formidable save_row declared (Some "Poll") None None database
      = (Ok form, db')
      ∧ form = {| pk := 2; label := "Poll"; description := "" |}
      ∧ formidables db' = [stored_form; form].
Proof.
  split.
  - exact (proj1 (to_formidable_creation save_row declared None
                    (Some "A poll") database) eq_refl).
  - destruct (proj2 (to_formidable_creation save_row declared (Some "Poll")
                       None database) "Poll" eq_refl)
      as (form & db' & Hrun & Hform & Hrows & _); [discriminate|].
    exists form, db'. split; [exact Hrun|]. split; [exact Hform|].
    rewrite Hrows. reflexivity.
Defined.

(** * Further properties *)

(** ** Of the removal pass *)

Section RemovalPassMore.
Context {Value Error FormField : Type}.
Implicit Types (self : BaseDynamicForm Value Error FormField).
Implicit Types (data : gmap string Value) (c : Condition Value).
Implicit Types (cs : list (Condition Value)) (k : string).

(** X1: [get_removed_fields] yields a slug at most once, and only a
    slug that some condition with a false verdict targets. *)
Theorem removed_fields_are_distinct_refused_targets cs data :
  NoDup (get_removed_fields cs data)
  ∧ ∀ k, k ∈ get_removed_fields cs data →
      ∃ c, c ∈ cs ∧ k ∈ fields_ids c ∧ keep_fields c data = false.
Proof.
  split; [apply NoDup_get_removed_fields|].
  intros k [(c & Hc & Hk) Hall]%elem_of_get_removed_fields.
  exists c. split_and!; [done..|]. by apply Hall.
Qed.

(** X2: the removed fields depend on which conditions are attached,
    not on how often or where each one occurs in the list. *)
Theorem removed_fields_depend_on_the_condition_set cs cs' data :
  (∀ c, c ∈ cs ↔ c ∈ cs') →
  (∀ k, k ∈ get_removed_fields cs data ↔ k ∈ get_removed_fields cs' data)
  ∧ get_removed_fields cs data ≡ₚ get_removed_fields cs' data.
Proof.
  intros Hsame.
  assert (∀ k, k ∈ get_removed_fields cs data
               ↔ k ∈ get_removed_fields cs' data) as Hiff.
  { intros k. rewrite !elem_of_get_removed_fields.
    split; intros [(c & Hc & Hk) Hall]; (split; [exists c; split; [by apply Hsame|done]|]);
      intros c' Hc'; apply Hall; by apply Hsame. }
  split; [done|].
  apply NoDup_Permutation; auto using NoDup_get_removed_fields.
Qed.

(** X3: of two condition lists put together, a slug is removed when
    one of the two removes it and neither one, targeting it, keeps it. *)
Theorem removed_fields_of_appended_conditions cs1 cs2 data k :
  k ∈ get_removed_fields (cs1 ++ cs2) data
  ↔ (k ∈ get_removed_fields cs1 data ∨ k ∈ get_removed_fields cs2 data)
    ∧ ((∃ c, c ∈ cs1 ∧ k ∈ fields_ids c) → k ∈ get_removed_fields cs1 data)
    ∧ ((∃ c, c ∈ cs2 ∧ k ∈ fields_ids c) → k ∈ get_removed_fields cs2 data).
Proof.
  rewrite !elem_of_get_removed_fields. setoid_rewrite elem_of_app. split.
  - intros [(c & [Hc|Hc] & Hk) Hall].
    + split_and!.
      * left. split; [by exists c|]. intros c' ? ?. apply Hall; auto.
      * intros _. split; [by exists c|]. intros c' ? ?. apply Hall; auto.
      * intros Hex. split; [done|]. intros c' ? ?. apply Hall; auto.
    + split_and!.
      * right. split; [by exists c|]. intros c' ? ?. apply Hall; auto.
      * intros Hex. split; [done|]. intros c' ? ?. apply Hall; auto.
      * intros _. split; [by exists c|]. intros c' ? ?. apply Hall; auto.
  - intros (Hone & H1 & H2). split.
    + destruct Hone as [[(c & Hc & Hk) _]|[(c & Hc & Hk) _]];
        exists c; auto.
    + intros c [Hc|Hc] Hk.
      * apply H1; [by exists c|done..].
      * apply H2; [by exists c|done..].
Qed.

(** X4: a condition bears on the slugs it targets and on no other:
    for any other slug, the outcome is the same with or without it. *)
Theorem condition_bears_on_its_targets_only c cs data k :
  k ∉ fields_ids c →
  k ∈ get_removed_fields (c :: cs) data ↔ k ∈ get_removed_fields cs data.
Proof.
  intros Hk. rewrite !elem_of_get_removed_fields.
  setoid_rewrite elem_of_cons. split.
  - intros [(c' & [->|Hc'] & Hk') Hall]; [done|].
    split; [by exists c'|]. intros c'' ? ?. apply Hall; auto.
  - intros [(c' & Hc' & Hk') Hall]. split; [exists c'; auto|].
    intros c'' [->|?] ?; [done|]. by apply Hall.
Qed.

(** X5: attaching one more condition whose verdict is to keep never
    makes the pass remove a field it did not remove before. *)
Theorem keeping_condition_removes_nothing_more c cs data :
  keep_fields c data = true →
  ∀ k, k ∈ get_removed_fields (c :: cs) data →
       k ∈ get_removed_fields cs data ∧ k ∉ fields_ids c.
Proof.
  intros Hkeep k Hin.
  assert (k ∉ fields_ids c) as Hk.
  { intros Hk. apply elem_of_get_removed_fields in Hin as [_ Hall].
    rewrite (Hall c) in Hkeep; [done|left|done]. }
  split; [|done].
  apply elem_of_get_removed_fields in Hin as [(c' & Hc' & Hk') Hall].
  apply elem_of_get_removed_fields.
  apply elem_of_cons in Hc' as [->|Hc']; [done|].
  split; [by exists c'|]. intros c'' ? ?. apply Hall; [by right|done].
Qed.
End RemovalPassMore.

Section RemovalPassEffects.
Context {Value W : Type}.
Implicit Types (cs : list (EffCondition Value W)).
Implicit Types (data : gmap string Value) (w : W).

(** X6: one pass calls [keep_fields] once on each condition, in the
    order of the list, however many slugs the condition targets (none
    included): the state the pass leaves is the state after exactly
    these calls. *)
Theorem keep_fields_is_called_once_per_condition cs data w :
  (eff_get_removed_fields cs data w).2
  = foldl (λ w' condition, (eff_keep_fields condition w' data).2) w cs.
Proof.
  unfold eff_get_removed_fields.
  destruct (eff_condition_targets cs data w) as [catalog w'] eqn:Hrun.
  cbn [snd]. change w' with (catalog, w').2. rewrite <-Hrun. clear Hrun.
  unfold eff_condition_targets. generalize (∅ : gmap string (list bool)).
  revert w. induction cs as [|c cs IH]; intros w targets; [done|].
  cbn [foldl fst snd].
  destruct (eff_keep_fields c w data) as [keep w1]. apply IH.
Qed.
End RemovalPassEffects.

Section CleanMore.
Context {Value Error FormField : Type}.
Implicit Types (self : BaseDynamicForm Value Error FormField).
Implicit Types (data : gmap string Value) (c : Condition Value).
Implicit Types (cs : list (Condition Value)) (k : string).

Lemma remove_field_absent self k :
  cleaned_data self !! k = None → errors self !! k = None →
  od_get k (fields self) = None →
  remove_field self k = Ok self.
Proof.
  intros Hd He Hf. rewrite remove_field_Ok.
  rewrite !delete_id by done.
  rewrite od_remove_absent by by apply od_get_None.
  by destruct self.
Qed.

Lemma removal_loop_absent (ks : list string) self :
  (∀ k, k ∈ ks →
        cleaned_data self !! k = None ∧ errors self !! k = None
        ∧ od_get k (fields self) = None) →
  for_each remove_field self ks = Ok self.
Proof.
  induction ks as [|k ks IH]; intros Habsent; cbn [for_each]; [done|].
  destruct (Habsent k) as (Hd & He & Hf); [left|].
  rewrite remove_field_absent by done. cbn [mbind result_bind].
  apply IH. intros k' Hk'. apply Habsent. by right.
Qed.

Lemma get_removed_fields_ext cs data1 data2 :
  (∀ c, c ∈ cs → keep_fields c data1 = keep_fields c data2) →
  get_removed_fields cs data1 = get_removed_fields cs data2.
Proof.
  intros Hsame.
  assert (∀ targets,
            foldl (λ targets condition,
                     let keep := keep_fields condition data1 in
                     foldl (fill_catalog keep) targets (fields_ids condition))
                  targets cs
            = foldl (λ targets condition,
                       let keep := keep_fields condition data2 in
                       foldl (fill_catalog keep) targets (fields_ids condition))
                    targets cs) as Hfold.
  { induction cs as [|c cs IH]; intros targets; [done|].
    cbn [foldl]. cbn zeta. rewrite (Hsame c) by left.
    apply IH. intros c' Hc'. apply Hsame. by right. }
  unfold get_removed_fields, condition_targets. by rewrite Hfold.
Qed.

(** X7: conditions whose false verdicts fall on slugs the form does not
    know (no field, no cleaned value, no error under that slug) leave
    the form as it is: [clean] neither raises nor changes anything. *)
Theorem clean_ignores_unknown_targets self :
  (∀ k, k ∈ get_removed_fields (_conditions self) (cleaned_data self) →
        cleaned_data self !! k = None ∧ errors self !! k = None
        ∧ od_get k (fields self) = None) →
  clean self = Ok (cleaned_data self, self).
Proof.
  intros Hunknown. unfold clean. by rewrite removal_loop_absent.
Qed.

(** X8: when the verdict of every condition is the same on the pruned
    [cleaned_data] as on the original one, running [clean] again on the
    cleaned form changes nothing. *)
Theorem clean_again_changes_nothing self returned self' :
  clean self = Ok (returned, self') →
  (∀ c, c ∈ _conditions self →
        keep_fields c (cleaned_data self')
        = keep_fields c (cleaned_data self)) →
  clean self' = Ok (returned, self').
Proof.
  unfold clean at 1.
  set (removed := get_removed_fields _ _).
  destruct (removal_loop removed self) as (self1 & -> & Hf & Hd & He & Hc).
  cbn [mbind result_bind]. intros [= <- <-] Hverdicts.
  unfold clean. rewrite Hc.
  rewrite (get_removed_fields_ext _ _ (cleaned_data self)) by done.
  fold removed. rewrite removal_loop_absent; [done|].
  intros k Hk. rewrite Hd, He, Hf.
  pose proof (od_get_filter (λ x, x ∉ removed) k (fields self)) as Hg.
  cbv beta in Hg. rewrite Hg.
  rewrite !decide_True by done. by rewrite decide_False by tauto.
Qed.
End CleanMore.

(** ** Of the form class generator *)

Section OrderedDictMore.
Context {V : Type}.
Implicit Types (d : OrderedDict V) (k : string).

Lemma od_get_od_set k k' v d :
  od_get k' (od_set k v d) = if decide (k = k') then Some v else od_get k' d.
Proof.
  induction d as [|[k0 v0] d IH]; simpl.
  - by destruct (decide (k = k')).
  - destruct (decide (k0 = k)) as [->|Hne]; simpl.
    + by destruct (decide (k = k')).
    + destruct (decide (k0 = k')) as [->|Hne'].
      * by rewrite decide_False by done.
      * done.
Qed.

Lemma od_set_keys k v d :
  (od_set k v d).*1 = if decide (k ∈ d.*1) then d.*1 else d.*1 ++ [k].
Proof.
  induction d as [|[k0 v0] d IH].
  - destruct (decide (k ∈ ([] : OrderedDict V).*1)) as [Hin|_]; [|done].
    by apply elem_of_nil in Hin.
  - cbn [od_set]. rewrite fmap_cons. cbn [fst].
    destruct (decide (k0 = k)) as [->|Hne].
    + rewrite fmap_cons. cbn [fst].
      destruct (decide (k ∈ k :: d.*1)) as [_|Hnin]; [done|].
      destruct Hnin. left.
    + rewrite fmap_cons, IH. cbn [fst].
      destruct (decide (k ∈ d.*1)) as [Hin|Hnin];
        destruct (decide (k ∈ k0 :: d.*1)) as [Hin'|Hnin']; try done.
      * destruct Hnin'. by right.
      * apply elem_of_cons in Hin' as [?|?]; congruence.
Qed.

Lemma od_set_NoDup k v d : NoDup d.*1 → NoDup (od_set k v d).*1.
Proof.
  intros Hnd. rewrite od_set_keys. case_decide as Hk; [done|].
  apply NoDup_app. split_and!; [done| |apply NoDup_singleton].
  intros k' Hk' ->%list_elem_of_singleton. done.
Qed.
End OrderedDictMore.

Section GeneratorsMore.
Context {Value FormField CondSpec : Type}.
Context (default_factory : FormFieldFactory FormField).
Context (compile : OrderedDict (attr Value FormField) → CondSpec → Condition Value).
Implicit Types (f : FormFieldFactory FormField) (role : option string).
Implicit Types (defs : list FieldDef) (field : FieldDef) (k : string).
Implicit Types (attrs : OrderedDict (attr Value FormField)).
Implicit Types (field_factory : option (FormFieldFactory FormField)).

Lemma add_field_loop_NoDup f role defs attrs :
  NoDup attrs.*1 → NoDup (foldl (add_field f role) attrs defs).*1.
Proof.
  revert attrs. induction defs as [|field defs IH]; intros attrs Hnd; [done|].
  cbn [foldl]. apply IH. unfold add_field.
  destruct (produce f field role); [by apply od_set_NoDup|done].
Qed.

(** After the loop, a slug holds the field produced for the last
    definition of that slug which was not skipped. *)
Lemma add_field_loop_lookup f role defs attrs k :
  od_get k (foldl (add_field f role) attrs defs)
  = match last (omap (λ field, produce f field role)
                     (filter (λ field, slug field = k) defs)) with
    | Some form_field => Some (AttrField form_field)
    | None => od_get k attrs
    end.
Proof.
  revert attrs. induction defs as [|field defs IH]; intros attrs; [done|].
  cbn [foldl]. rewrite IH, filter_cons. unfold add_field.
  destruct (decide (slug field = k)) as [<-|Hne].
  - cbn [omap list_omap].
    destruct (produce f field role) as [form_field|]; [|done].
    rewrite last_cons, od_get_od_set, decide_True by done.
    by destruct (last _).
  - destruct (produce f field role) as [form_field|]; [|done].
    by rewrite od_get_od_set, decide_False by done.
Qed.

Lemma declared_fields_keys attrs k :
  k ∈ (declared_fields attrs).*1 → k ∈ attrs.*1.
Proof.
  unfold declared_fields.
  intros ([k' form_field] & -> & Hin)%list_elem_of_fmap.
  apply list_elem_of_omap in Hin as ([k0 a] & Hin & Hentry).
  destruct a; simplify_eq/=. by apply (list_elem_of_fmap_2 fst) in Hin.
Qed.

Lemma declared_fields_NoDup attrs :
  NoDup attrs.*1 → NoDup (declared_fields attrs).*1.
Proof.
  induction attrs as [|[k a] attrs IH]; [done|].
  rewrite fmap_cons, NoDup_cons. intros [Hk Hnd].
  unfold declared_fields. cbn [omap list_omap snd fst].
  destruct a as [form_field|cs]; [|by apply IH].
  rewrite fmap_cons. apply NoDup_cons. split; [|by apply IH].
  intros Hin. by apply Hk, declared_fields_keys.
Qed.

Lemma declared_fields_lookup attrs k :
  NoDup attrs.*1 →
  od_get k (declared_fields attrs)
  = match od_get k attrs with
    | Some (AttrField form_field) => Some form_field
    | _ => None
    end.
Proof.
  induction attrs as [|[k0 a] attrs IH]; [done|].
  rewrite fmap_cons, NoDup_cons. intros [Hk0 Hnd].
  unfold declared_fields. cbn [omap list_omap snd fst od_get].
  destruct a as [form_field|cs].
  - cbn [od_get]. case_decide; [done|]. by apply IH.
  - fold (declared_fields attrs). case_decide as Heq; [|by apply IH].
    subst k0. apply od_get_None. intros Hin.
    by apply Hk0, declared_fields_keys.
Qed.

(** The field mapping of a class made from the definitions [defs],
    whether or not their slugs are unique. *)
Lemma base_fields_lookup f role defs (cs : list (Condition Value)) k :
  od_get k (base_fields
              (new_form_class
                 (od_set "_conditions" (AttrConditions cs)
                         (foldl (add_field f role) [] defs))))
  = if decide (k = "_conditions") then None
    else last (omap (λ field, produce f field role)
                    (filter (λ field, slug field = k) defs)).
Proof.
  unfold new_form_class. cbn [base_fields].
  rewrite declared_fields_lookup
    by (apply od_set_NoDup, add_field_loop_NoDup; constructor).
  rewrite od_get_od_set.
  destruct (decide ("_conditions" = k)) as [<-|Hne].
  - by rewrite decide_True.
  - rewrite decide_False by done. rewrite add_field_loop_lookup.
    by destruct (last _).
Qed.

Lemma base_fields_NoDup f role defs (cs : list (Condition Value)) :
  NoDup (base_fields
           (new_form_class
              (od_set "_conditions" (AttrConditions cs)
                      (foldl (add_field f role) [] defs)))).*1.
Proof.
  unfold new_form_class. cbn [base_fields].
  apply declared_fields_NoDup, od_set_NoDup, add_field_loop_NoDup.
  constructor.
Qed.
End GeneratorsMore.

Section GeneratorsFurther.
Context {Value FormField CondSpec : Type}.
Context (default_factory : FormFieldFactory FormField).
Context (compile : OrderedDict (attr Value FormField) → CondSpec → Condition Value).
Implicit Types (role : option string) (field : FieldDef) (k : string).
Implicit Types (field_factory : option (FormFieldFactory FormField)).

Lemma base_fields_key_is_produced (f : FormFieldFactory FormField) role
    (defs : list FieldDef) (cs : list (Condition Value)) k :
  k ∈ (base_fields
         (new_form_class
            (od_set "_conditions" (AttrConditions cs)
                    (foldl (add_field f role) [] defs)))).*1 →
  k ≠ "_conditions"
  ∧ ∃ field, field ∈ defs ∧ slug field = k ∧ is_Some (produce f field role).
Proof.
  intros Hin.
  destruct (od_get k (base_fields
              (new_form_class
                 (od_set "_conditions" (AttrConditions cs)
                         (foldl (add_field f role) [] defs)))))
    as [form_field|] eqn:Hget; [|by apply od_get_None in Hget].
  rewrite base_fields_lookup in Hget.
  case_decide as Hk; [done|]. split; [done|].
  apply last_Some_elem_of, list_elem_of_omap in Hget
    as (field & [Hslug Hfield]%list_elem_of_filter & Hproduce).
  exists field. split_and!; [done..|]. by eexists.
Qed.

(** X9: whatever the field definitions (slugs may repeat), the field
    mapping of a generated class has each key once, never has the key
    [_conditions], and has only slugs for which the factory produced a
    field.  This holds for both generators. *)
Theorem generated_field_mapping_is_well_formed
    (formidable : FormidableObject CondSpec) (schema : Schema CondSpec)
    role field_factory :
  let f := default default_factory field_factory in
  let from_object :=
    base_fields (get_dynamic_form_class default_factory compile formidable
                   role field_factory) in
  let from_schema :=
    base_fields (get_dynamic_form_class_from_schema default_factory compile
                   schema field_factory) in
  (NoDup from_object.*1
   ∧ ("_conditions" ∉ from_object.*1)
   ∧ ∀ k, k ∈ from_object.*1 →
       ∃ field, field ∈ formidable_iteration formidable role
                ∧ slug field = k ∧ is_Some (produce f field role))
  ∧ (NoDup from_schema.*1
     ∧ ("_conditions" ∉ from_schema.*1)
     ∧ ∀ k, k ∈ from_schema.*1 →
         ∃ field, field ∈ schema_fields schema
                  ∧ slug field = k ∧ is_Some (produce f field None)).
Proof.
  intros f from_object from_schema. split; split_and!.
  - apply base_fields_NoDup.
  - intros Hin. by apply base_fields_key_is_produced in Hin as [? _].
  - intros k Hin. by apply base_fields_key_is_produced in Hin as [_ ?].
  - apply base_fields_NoDup.
  - intros Hin. by apply base_fields_key_is_produced in Hin as [? _].
  - intros k Hin. by apply base_fields_key_is_produced in Hin as [_ ?].
Qed.

(** X10: when several definitions share a slug, the class holds under
    that slug the field produced for the last of them, in visiting
    order, that the factory did not skip; a skipped definition does not
    erase a field produced earlier for the same slug. *)
Theorem last_produced_definition_of_a_slug_wins
    (formidable : FormidableObject CondSpec) (schema : Schema CondSpec)
    role field_factory k :
  k ≠ "_conditions" →
  let f := default default_factory field_factory in
  od_get k (base_fields (get_dynamic_form_class default_factory compile
                           formidable role field_factory))
  = last (omap (λ field, produce f field role)
               (filter (λ field, slug field = k)
                       (formidable_iteration formidable role)))
  ∧ od_get k (base_fields (get_dynamic_form_class_from_schema
                             default_factory compile schema field_factory))
    = last (omap (λ field, produce f field None)
                 (filter (λ field, slug field = k) (schema_fields schema))).
Proof.
  intros Hk f. split.
  - unfold get_dynamic_form_class, formidable_attrs.
    rewrite base_fields_lookup. by rewrite decide_False.
  - unfold get_dynamic_form_class_from_schema. cbn [base_fields].
    unfold schema_attrs, schema_iteration.
    rewrite base_fields_lookup. by rewrite decide_False.
Qed.

(** X11: every field definition that [get_dynamic_form_class] hands to
    the factory is a stored one with its slug and order, its items
    sorted by their order, and its accesses restricted to those of the
    role; for no role, or an empty one, the accesses are all there. *)
Theorem visited_fields_are_prefetched
    (formidable : FormidableObject CondSpec) role field :
  field ∈ formidable_iteration formidable role →
  ∃ stored,
    stored ∈ formidable_fields formidable
    ∧ slug field = slug stored
    ∧ order field = order stored
    ∧ Sorted (λ a b, (item_order a ≤ item_order b)%Z) (items field)
    ∧ items field ≡ₚ items stored
    ∧ ∀ a, a ∈ accesses field
           ↔ a ∈ accesses stored
             ∧ (truthy role = true → Some (access_id a) = role).
Proof.
  unfold formidable_iteration. rewrite order_by_Permutation.
  intros (stored & -> & Hstored)%list_elem_of_fmap.
  exists stored. unfold prefetch_related. cbn [slug order items accesses].
  split_and!; [done..|apply order_by_Sorted|apply order_by_Permutation|].
  intros a. destruct (truthy role).
  - rewrite list_elem_of_filter. split.
    + by intros [? ?].
    + intros [? Hrole]. split; [by apply Hrole|done].
  - split; [by intros ?|by intros [? _]].
Qed.

Lemma NoDup_fmap_elem_inj {A B} (g : A → B) (l : list A) (x y : A) :
  NoDup (g <$> l) → x ∈ l → y ∈ l → g x = g y → x = y.
Proof.
  induction l as [|z l IH]; [by intros _ ?%elem_of_nil|].
  rewrite fmap_cons, NoDup_cons. intros [Hz Hnd] Hx Hy Heq.
  apply elem_of_cons in Hx as [->|Hx]; apply elem_of_cons in Hy as [->|Hy].
  - done.
  - destruct Hz. rewrite Heq. by apply list_elem_of_fmap_2.
  - destruct Hz. rewrite <-Heq. by apply list_elem_of_fmap_2.
  - by apply IH.
Qed.

(** X12: when the stored field definitions have pairwise different
    orders, [get_dynamic_form_class] gives the same class in whatever
    sequence the database returns them. *)
Theorem form_class_is_independent_of_storage_order
    (formidable1 formidable2 : FormidableObject CondSpec)
    role field_factory :
  formidable_fields formidable1 ≡ₚ formidable_fields formidable2 →
  formidable_conditions formidable1 = formidable_conditions formidable2 →
  NoDup (order <$> formidable_fields formidable1) →
  get_dynamic_form_class default_factory compile formidable1 role
                         field_factory
  = get_dynamic_form_class default_factory compile formidable2 role
                           field_factory.
Proof.
  intros Hperm Hconditions Hnd.
  assert (formidable_iteration formidable1 role
          = formidable_iteration formidable2 role) as Hvisit.
  { assert (Transitive (λ a b : FieldDef, (order a ≤ order b)%Z))
      by (intros a b c; lia).
    apply (Sorted_unique_strong (λ a b : FieldDef, (order a ≤ order b)%Z)).
    - intros x1 x2 Hx1 Hx2 H12 H21.
      unfold formidable_iteration in Hx1, Hx2.
      rewrite order_by_Permutation in Hx1.
      rewrite order_by_Permutation, <-Hperm in Hx2.
      apply (NoDup_fmap_elem_inj order
               (prefetch_related role <$> formidable_fields formidable1));
        [|done|done|lia].
      rewrite <-list_fmap_compose.
      by rewrite (list_fmap_ext (order ∘ prefetch_related role) order).
    - apply order_by_Sorted.
    - apply order_by_Sorted.
    - unfold formidable_iteration.
      by rewrite !order_by_Permutation, Hperm. }
  unfold get_dynamic_form_class, formidable_attrs.
  by rewrite Hvisit, Hconditions.
Qed.
End GeneratorsFurther.

(** ** Of saving a declared form *)

Section SavingMore.
Context {DeclaredField : Type}.
Context (field_to_formidable :
  DeclaredField → Formidable → Z → string → list FieldRow → list FieldRow).
Implicit Types (cls : OrderedDict DeclaredField) (db : Database).
Implicit Types (form : Formidable).

Lemma str_or_idemp (a : option string) (b : string) :
  str_or a (str_or a b) = str_or a b.
Proof. destruct a as [s|]; simpl; [|done]. by destruct (String.eqb s ""). Qed.

(** The loop numbers the declared fields from 0 in their declaration
    order, when each declared field saves itself as one row. *)
Lemma save_declared_fields_rows cls form db :
  (∀ field form' position name rows,
     field_to_formidable field form' position name rows
     = rows ++ [ {| form_id := pk form'; field_slug := name;
                    field_order := position |} ]) →
  field_rows (save_declared_fields field_to_formidable cls form db)
  = field_rows db
    ++ imap (λ i item, {| form_id := pk form; field_slug := item.1;
                          field_order := Z.of_nat i |}) cls.
Proof.
  intros Hsave. unfold save_declared_fields.
  enough (∀ (n : nat) rows,
    foldl (λ acc item,
             (acc.1 + 1,
              field_to_formidable item.2 form acc.1 item.1 acc.2)%Z)
          (Z.of_nat n, rows) cls
    = (Z.of_nat (n + length cls),
       rows ++ imap (λ i item, {| form_id := pk form; field_slug := item.1;
                                  field_order := Z.of_nat (n + i) |}) cls))
    as Hloop.
  { change 0%Z with (Z.of_nat 0). by rewrite Hloop. }
  induction cls as [|item cls IH]; intros n rows.
  - cbn [foldl imap length]. by rewrite Nat.add_0_r, app_nil_r.
  - cbn [foldl fst snd length]. rewrite Hsave.
    replace (Z.of_nat n + 1)%Z with (Z.of_nat (S n)) by lia.
    rewrite IH, imap_cons, <-app_assoc. cbn [app].
    rewrite Nat.add_0_r, Nat.add_succ_r. do 3 f_equal.
    apply imap_ext. intros i x _. simpl. do 2 f_equal. lia.
Qed.

(** X13: when each declared field saves itself as one row, creation
    adds to the field rows one row per declared field, attached to the
    new object, carrying the field's name as slug and its rank from 0
    in declaration order; with an instance, these rows take the place
    of the rows the instance had. *)
Theorem declared_fields_are_saved_in_order cls label description db :
  (∀ field form position name rows,
     field_to_formidable field form position name rows
     = rows ++ [ {| form_id := pk form; field_slug := name;
                    field_order := position |} ]) →
  (∀ l, label = Some l → l ≠ "" →
     field_rows
       (to_formidable field_to_formidable cls label description None db).2
     = field_rows db
       ++ imap (λ i item, {| form_id := next_pk db; field_slug := item.1;
                             field_order := Z.of_nat i |}) cls)
  ∧ (∀ form,
       field_rows
         (to_formidable field_to_formidable cls label description
                        (Some form) db).2
       = filter (λ row, form_id row ≠ pk form) (field_rows db)
         ++ imap (λ i item, {| form_id := pk form; field_slug := item.1;
                               field_order := Z.of_nat i |}) cls).
Proof.
  intros Hsave. split.
  - intros l -> Hl. unfold to_formidable.
    rewrite truthy_Some by done. cbn [negb objects_create snd].
    by rewrite save_declared_fields_rows.
  - intros form. unfold to_formidable, get_clean_form.
    destruct (truthy description || truthy label); cbn [snd];
      by rewrite save_declared_fields_rows.
Qed.

(** X14: [get_clean_form] is idempotent: applied again, with the same
    label and description, to the form and the database it has
    returned, it returns them unchanged. *)
Theorem get_clean_form_is_idempotent form label description db :
  get_clean_form (get_clean_form form label description db).1
                 label description
                 (get_clean_form form label description db).2
  = get_clean_form form label description db.
Proof.
  unfold get_clean_form.
  destruct (truthy description || truthy label);
    cbn [fst snd pk Model.label Model.description].
  - rewrite !str_or_idemp. f_equal.
    unfold objects_update, delete_fields.
    cbn [formidables field_rows next_pk]. f_equal.
    + rewrite <-list_fmap_compose. apply list_fmap_ext.
      intros i row _. simpl. destruct (decide (pk row = pk form)); simpl.
      * by rewrite decide_True.
      * by rewrite decide_False.
    + rewrite list_filter_filter. apply list_filter_iff. tauto.
  - f_equal. unfold delete_fields. cbn [formidables field_rows next_pk].
    f_equal. rewrite list_filter_filter. apply list_filter_iff. tauto.
Qed.

(** X15: with an instance, [to_formidable] never raises, asks for no
    label, and creates no formidable object: the primary keys of the
    stored objects and the next free key are as before, and the object
    returned has the key of the instance. *)
Theorem to_formidable_update_creates_no_form cls form label description db :
  ∃ form' db',
    to_formidable field_to_formidable cls label description (Some form) db
    = (Ok form', db')
    ∧ pk form' = pk form
    ∧ pk <$> formidables db' = pk <$> formidables db
    ∧ next_pk db' = next_pk db.
Proof.
  unfold to_formidable, get_clean_form.
  destruct (truthy description || truthy label).
  - eexists _, _. split_and!; [done..| |].
    + rewrite save_declared_fields_formidables.
      cbn [objects_update delete_fields formidables].
      rewrite <-list_fmap_compose. apply list_fmap_ext.
      intros i row _. simpl. by destruct (decide (pk row = pk form)).
    + unfold save_declared_fields. by destruct (foldl _ _ cls).
  - eexists _, _. split_and!; [done..| |].
    + by rewrite save_declared_fields_formidables.
    + unfold save_declared_fields. by destruct (foldl _ _ cls).
Qed.
End SavingMore.

Section GeneratorsConditions.
Context {Value FormField CondSpec : Type}.
Context (default_factory : FormFieldFactory FormField).
Context (compile : OrderedDict (attr Value FormField) → CondSpec → Condition Value).

(** X16: a formidable object whose conditions are [None] or an empty
    list yields, through [get_dynamic_form_class], a class with no
    condition, whatever the role and even when one of its fields has
    the slug [_conditions]; [clean] on an instance of that class
    removes nothing. *)
Theorem formidable_without_conditions_removes_nothing
    (formidable : FormidableObject CondSpec) (role : option string)
    (field_factory : option (FormFieldFactory FormField)) :
  formidable_conditions formidable = None
  ∨ formidable_conditions formidable = Some [] →
  let form_class :=
    get_dynamic_form_class default_factory compile formidable role
                           field_factory in
  class_conditions form_class = []
  ∧ ∀ (Error : Type) (data : gmap string Value) (errs : gmap string Error),
      clean (instantiate form_class data errs)
      = Ok (data, instantiate form_class data errs).
Proof.
  intros Hconditions form_class.
  assert (class_conditions form_class = []) as Hnone.
  { unfold form_class, get_dynamic_form_class, new_form_class,
      formidable_attrs.
    cbn [class_conditions]. rewrite od_get_od_set_eq.
    by destruct Hconditions as [->| ->]. }
  split; [done|]. intros Error data errs.
  unfold clean, instantiate. cbn [_conditions cleaned_data].
  by rewrite Hnone, get_removed_fields_nil.
Qed.
End GeneratorsConditions.

(** ** On concrete forms *)

Import Cases.

(** Removal does not cascade within one pass: [B] goes because [A] is
    false, [C] stays because [B] was true when the conditions were
    evaluated; a second pass then removes [C] too. *)
Example removal_does_not_cascade :
  get_removed_fields (_conditions cascading_form)
                     (cleaned_data cascading_form) = ["B"]
  ∧ get_removed_fields (_conditions cascading_form)
                       (delete "B" (cleaned_data cascading_form))
    ≡ₚ ["B"; "C"].
Proof.
  split; [by vm_compute|].
  assert (get_removed_fields (_conditions cascading_form)
            (delete "B" (cleaned_data cascading_form)) = ["C"; "B"]) as ->
    by (vm_compute; reflexivity).
  apply perm_swap.
Qed.

(** Of the three definitions of [a], the choice field stays: the text
    field before it is replaced, the hidden one after it is skipped. *)
Example repeated_slug_keeps_last_produced :
  base_fields (get_dynamic_form_class_from_schema kind_factory compile
                 schema_with_repeated_slug None) = [("a", "choice")].
Proof. vm_compute. done. Qed.

(** One condition attached twice. *)
Lemma removed_fields_depend_on_the_condition_set_witness :
  (∀ c, c ∈ repeated_conditions ↔ c ∈ conditions_on_C)
  ∧ (∀ k, k ∈ get_removed_fields repeated_conditions submission
          ↔ k ∈ get_removed_fields conditions_on_C submission)
  ∧ get_removed_fields repeated_conditions submission
    ≡ₚ get_removed_fields conditions_on_C submission.
Proof.
  assert (∀ c, c ∈ repeated_conditions ↔ c ∈ conditions_on_C) as Hsame.
  { intros c. unfold repeated_conditions, conditions_on_C.
    rewrite !elem_of_cons, !elem_of_nil. tauto. }
  split; [exact Hsame|].
  exact (removed_fields_depend_on_the_condition_set
           repeated_conditions conditions_on_C submission Hsame).
Defined.

(** A condition on [C] does not bear on [D]. *)
Lemma condition_bears_on_its_targets_only_witness :
  ("D" ∉ fields_ids (keep_if "A" ["C"]))
  ∧ ("D" ∈ get_removed_fields [keep_if "A" ["C"]; keep_if "A" ["D"]] submission
     ↔ "D" ∈ get_removed_fields [keep_if "A" ["D"]] submission).
Proof.
  assert ("D" ∉ fields_ids (keep_if "A" ["C"])) as Hother.
  { simpl. intros Hin. apply list_elem_of_singleton in Hin. discriminate. }
  split; [exact Hother|].
  exact (condition_bears_on_its_targets_only
           (keep_if "A" ["C"]) [keep_if "A" ["D"]] submission "D" Hother).
Defined.

(** [B] is true in the submission, so a condition on [B] keeps. *)
Lemma keeping_condition_removes_nothing_more_witness :
  keep_fields (keep_if "B" ["C"]) submission = true
  ∧ ∀ k, k ∈ get_removed_fields
               [keep_if "B" ["C"]; keep_if "A" ["C"; "D"]] submission →
         k ∈ get_removed_fields [keep_if "A" ["C"; "D"]] submission
         ∧ k ∉ fields_ids (keep_if "B" ["C"]).
Proof.
  assert (keep_fields (keep_if "B" ["C"]) submission = true) as Hkeep.
  { vm_compute. reflexivity. }
  split; [exact Hkeep|].
  exact (keeping_condition_removes_nothing_more
           (keep_if "B" ["C"]) [keep_if "A" ["C"; "D"]] submission Hkeep).
Defined.

(** The only removed slug, [Z], is unknown to the form. *)
Lemma clean_ignores_unknown_targets_witness :
  (∀ k, k ∈ get_removed_fields (_conditions form_with_unknown_target)
                               (cleaned_data form_with_unknown_target) →
        cleaned_data form_with_unknown_target !! k = None
        ∧ errors form_with_unknown_target !! k = None
        ∧ od_get k (fields form_with_unknown_target) = None)
  ∧ clean form_with_unknown_target
    = Ok (cleaned_data form_with_unknown_target, form_with_unknown_target).
Proof.
  assert (∀ k, k ∈ get_removed_fields (_conditions form_with_unknown_target)
                     (cleaned_data form_with_unknown_target) →
               cleaned_data form_with_unknown_target !! k = None
               ∧ errors form_with_unknown_target !! k = None
               ∧ od_get k (fields form_with_unknown_target) = None)
    as Hunknown.
  { assert (get_removed_fields (_conditions form_with_unknown_target)
              (cleaned_data form_with_unknown_target) = ["Z"]) as ->
      by (vm_compute; reflexivity).
    intros k Hk. apply list_elem_of_singleton in Hk. subst k.
    vm_compute. done. }
  split; [exact Hunknown|].
  exact (clean_ignores_unknown_targets form_with_unknown_target Hunknown).
Defined.

(** The condition of [form_hiding_C] reads [A], which stays. *)
Lemma clean_again_changes_nothing_witness :
  clean form_hiding_C = Ok (cleaned_data form_without_C, form_without_C)
  ∧ (∀ c, c ∈ _conditions form_hiding_C →
          keep_fields c (cleaned_data form_without_C)
          = keep_fields c (cleaned_data form_hiding_C))
  ∧ clean form_without_C = Ok (cleaned_data form_without_C, form_without_C).
Proof.
  assert (clean form_hiding_C
          = Ok (cleaned_data form_without_C, form_without_C)) as Hclean.
  { vm_compute. reflexivity. }
  assert (∀ c, c ∈ _conditions form_hiding_C →
               keep_fields c (cleaned_data form_without_C)
               = keep_fields c (cleaned_data form_hiding_C)) as Hverdicts.
  { intros c Hc. simpl in Hc. apply list_elem_of_singleton in Hc. subst c.
    vm_compute. reflexivity. }
  split; [exact Hclean|]. split; [exact Hverdicts|].
  exact (clean_again_changes_nothing form_hiding_C
           (cleaned_data form_without_C) form_without_C Hclean Hverdicts).
Defined.

(** The slug [a] is not the conditions attribute. *)
Lemma last_produced_definition_of_a_slug_wins_witness :
  "a" ≠ "_conditions"
  ∧ (let f := default kind_factory None in
     od_get "a" (base_fields (get_dynamic_form_class kind_factory compile
                                formidable (Some "guest") None))
     = last (omap (λ field, produce f field (Some "guest"))
                  (filter (λ field, slug field = "a")
                          (formidable_iteration formidable (Some "guest"))))
     ∧ od_get "a" (base_fields (get_dynamic_form_class_from_schema
                                  kind_factory compile
                                  schema_with_repeated_slug None))
       = last (omap (λ field, produce f field None)
                    (filter (λ field, slug field = "a")
                            (schema_fields schema_with_repeated_slug)))).
Proof.
  assert ("a" ≠ "_conditions") as Hslug by discriminate.
  split; [exact Hslug|].
  exact (last_produced_definition_of_a_slug_wins kind_factory compile
           formidable schema_with_repeated_slug (Some "guest") None "a" Hslug).
Defined.

(** The definition of [a] is among those visited for the role. *)
Lemma visited_fields_are_prefetched_witness :
  field_def "a" 1 [] ∈ formidable_iteration formidable (Some "guest")
  ∧ ∃ stored,
      stored ∈ formidable_fields formidable
      ∧ slug (field_def "a" 1 []) = slug stored
      ∧ order (field_def "a" 1 []) = order stored
      ∧ Sorted (λ a b, (item_order a ≤ item_order b)%Z)
               (items (field_def "a" 1 []))
      ∧ items (field_def "a" 1 []) ≡ₚ items stored
      ∧ ∀ a, a ∈ accesses (field_def "a" 1 [])
             ↔ a ∈ accesses stored
               ∧ (truthy (Some "guest") = true
                  → Some (access_id a) = Some "guest").
Proof.
  assert (field_def "a" 1 [] ∈ formidable_iteration formidable (Some "guest"))
    as Hvisited.
  { assert (formidable_iteration formidable (Some "guest")
            = [field_def "a" 1 []; field_def "b" 2 [];
               field_def "secret" 3 [hidden_from_guest]]) as ->
      by (vm_compute; reflexivity).
    left. }
  split; [exact Hvisited|].
  exact (visited_fields_are_prefetched formidable (Some "guest")
           (field_def "a" 1 []) Hvisited).
Defined.

(** The same three rows in two sequences, with orders 1, 2 and 3. *)
Lemma form_class_is_independent_of_storage_order_witness :
  formidable_fields formidable ≡ₚ formidable_fields formidable_stored_otherwise
  ∧ formidable_conditions formidable
    = formidable_conditions formidable_stored_otherwise
  ∧ NoDup (order <$> formidable_fields formidable)
  ∧ get_dynamic_form_class factory compile formidable (Some "guest") None
    = get_dynamic_form_class factory compile formidable_stored_otherwise
                             (Some "guest") None.
Proof.
  assert (formidable_fields formidable
          ≡ₚ formidable_fields formidable_stored_otherwise) as Hperm.
  { symmetry.
    exact (Permutation_cons_append
             [field_def "b" 2 []; field_def "secret" 3 [hidden_from_guest]]
             (field_def "a" 1 [])). }
  assert (formidable_conditions formidable
          = formidable_conditions formidable_stored_otherwise) as Hconditions
    by reflexivity.
  assert (NoDup (order <$> formidable_fields formidable)) as Horders.
  { apply (bool_decide_unpack _). vm_compute. exact I. }
  split; [exact Hperm|]. split; [exact Hconditions|].
  split; [exact Horders|].
  exact (form_class_is_independent_of_storage_order factory compile
           formidable formidable_stored_otherwise (Some "guest") None
           Hperm Hconditions Horders).
Defined.

(** [save_row] adds one row per declared field. *)
Lemma declared_fields_are_saved_in_order_witness :
  (∀ (field : unit) form position name rows,
     save_row field form position name rows
     = rows ++ [ {| form_id := pk form; field_slug := name;
                    field_order := position |} ])
  ∧ field_rows
      (to_formidable save_row declared (Some "Poll") None None database).2
    = field_rows database
      ++ [ {| form_id := 2; field_slug := "email"; field_order := 0 |};
           {| form_id := 2; field_slug := "phone"; field_order := 1 |} ]
  ∧ field_rows
      (to_formidable save_row declared (Some "Poll") None (Some stored_form)
                     database).2
    = [ {| form_id := 1; field_slug := "email"; field_order := 0 |};
        {| form_id := 1; field_slug := "phone"; field_order := 1 |} ].
Proof.
  assert (∀ (field : unit) form position name rows,
            save_row field form position name rows
            = rows ++ [ {| form_id := pk form; field_slug := name;
                           field_order := position |} ]) as Hsave
    by reflexivity.
  split; [exact Hsave|]. split.
  - exact (proj1 (declared_fields_are_saved_in_order save_row declared
                    (Some "Poll") None database Hsave)
             "Poll" eq_refl ltac:(discriminate)).
  - exact (proj2 (declared_fields_are_saved_in_order save_row declared
                    (Some "Poll") None database Hsave) stored_form).
Defined.

(** [formidable] has no conditions. *)
Lemma formidable_without_conditions_removes_nothing_witness :
  (formidable_conditions formidable = None
   ∨ formidable_conditions formidable = Some [])
  ∧ (let form_class :=
       get_dynamic_form_class factory compile formidable (Some "guest")
                              None in
     class_conditions form_class = []
     ∧ ∀ (Error : Type) (data : gmap string bool) (errs : gmap string Error),
         clean (instantiate form_class data errs)
         = Ok (data, instantiate form_class data errs)).
Proof.
  assert (formidable_conditions formidable = None
          ∨ formidable_conditions formidable = Some []) as Hnone.
  { left. reflexivity. }
  split; [exact Hnone|].
  exact (formidable_without_conditions_removes_nothing factory compile
           formidable (Some "guest") None Hnone).
Defined.
